(** * bloom-sift: a Bloom filter with Kirsch-Mitzenmacher double hashing

    Shallow embedding of [src/optimal.ts] ([calculateOptimalParams]) and of
    the [BloomSift] class (constructor, [add], [has], [clear], [fillRatio],
    [serialize], [deserialize], [hash128], [setBit], [getBit]).

    Modelling conventions.
    - A JavaScript [number] is an exact real ([R]): arithmetic is not
      rounded, and NaN and the infinities are not values of the model.
      The constructor, whose guards NaN passes, is modelled a second
      time over numbers that are finite or NaN (module [NaNAware]).
      [Math.log] is [ln], [Math.LN2] is [ln 2].  A record field that may
      hold anything (absent, NaN, a string, ...) is an [option R] whose
      [None] stands for every value that is not a finite number.
    - A [bigint] is a [Z]; [BigInt(x)] fails on a non-integer, the bigint
      remainder fails on a zero divisor and truncates towards zero.
    - A [Uint8Array] is a [list Z] of bytes; a store wraps modulo 256 and
      a read out of range yields [undefined] ([None]).
    - A thrown exception is the [Throw] completion carrying its message.
    - The 128-bit hash primitive [hash128x64] of the [murmur-hash] package
      is a parameter of the development.
    - [btoa] and [atob] follow the forgiving-base64 algorithms of the HTML
      standard on strings of 8-bit characters. *)

From Stdlib Require Import ZArith Reals Lra Lia String Ascii List DecimalString.
From stdpp Require Import base list.
Import ListNotations.
Local Open Scope Z_scope.

(** ** Completions: normal return or a thrown error *)

Inductive completion (A : Type) : Type :=
| Normal (a : A)
| Throw (message : string).
Arguments Normal {A} a.
Arguments Throw {A} message.

#[global] Instance completion_ret : MRet completion := fun _ a => Normal a.
#[global] Instance completion_bind : MBind completion := fun _ _ k c =>
  match c with
  | Normal a => k a
  | Throw m => Throw m
  end.

Definition completes {A} (c : completion A) : Prop := exists a, c = Normal a.

(** ** The JavaScript runtime, as far as the program uses it *)

Module JS.

#[global] Instance Rle_decision (x y : R) : Decision (x <= y)%R := Rle_dec x y.
#[global] Instance Rlt_decision (x y : R) : Decision (x < y)%R := Rlt_dec x y.
#[global] Instance Req_decision (x y : R) : Decision (x = y) := Req_dec_T x y.

Definition Math_LN2 : R := ln 2.
Definition Math_log (x : R) : R := ln x.
Definition Math_ceil (x : R) : R := IZR (Zceil x).
Definition Math_floor (x : R) : R := IZR (Zfloor x).
(** [Math.round] rounds to the nearest integer, a tie going up. *)
Definition Math_round (x : R) : R := IZR (Zfloor (x + / 2)).
Definition Math_min (x y : R) : R := Rmin x y.

Definition Number_isInteger (x : R) : bool := bool_decide (x = IZR (Zfloor x)).

(** [x <= 0 || !Number.isInteger(x)] on a field that may hold anything:
    whatever is not a finite number is not an integer. *)
Definition nonpositive_or_not_integer (v : option R) : bool :=
  match v with
  | Some x => bool_decide (x <= 0)%R || negb (Number_isInteger x)
  | None => true
  end.

(** [x < 0 || !Number.isInteger(x)]. *)
Definition negative_or_not_integer (v : option R) : bool :=
  match v with
  | Some x => bool_decide (x < 0)%R || negb (Number_isInteger x)
  | None => true
  end.

(** The value the field is read as once it has passed a check above. *)
Definition as_number (v : option R) : R := default 0%R v.

(** [BigInt(x)] *)
Definition BigInt (x : R) : completion Z :=
  if Number_isInteger x then Normal (Zfloor x)
  else Throw "RangeError: The number cannot be converted to a BigInt because it is not an integer".

(** [a % b] on bigints *)
Definition BigInt_rem (a b : Z) : completion Z :=
  if decide (b = 0) then Throw "RangeError: Division by zero"
  else Normal (Z.rem a b).

(** [Number(b)] on a bigint, read as an integer index; numbers being
    exact in this model, the conversion loses nothing. *)
Definition Number_of_BigInt (b : Z) : Z := b.

(** 32-bit signed wrap-around of the bitwise operators. *)
Definition ToInt32 (z : Z) : Z := (z + 2 ^ 31) mod 2 ^ 32 - 2 ^ 31.
(** [a << k] *)
Definition shl (a k : Z) : Z := ToInt32 (Z.shiftl (ToInt32 a) (k mod 32)).
(** [a | b] *)
Definition bor (a b : Z) : Z := Z.lor (ToInt32 a) (ToInt32 b).
(** [a & b] *)
Definition band (a b : Z) : Z := Z.land (ToInt32 a) (ToInt32 b).

(** Decimal rendering of an integer-valued number in a template literal. *)
Definition Number_toString (x : R) : string :=
  NilZero.string_of_int (Z.to_int (Zfloor x)).

(** The integer part of a number, truncated towards zero. *)
Definition ToIntegerOrInfinity (x : R) : Z :=
  if decide (0 <= x)%R then Zfloor x else Zceil x.

(** [new Uint8Array(len)]: as many zero bytes as the integer part of
    [len]; a negative length is a [RangeError]. *)
Definition Uint8Array_new (len : R) : completion (list Z) :=
  let n := ToIntegerOrInfinity len in
  if decide (n < 0) then Throw "RangeError: Invalid typed array length"
  else Normal (replicate (Z.to_nat n) 0).

(** [a[i]] *)
Definition Uint8Array_get (a : list Z) (i : Z) : option Z :=
  if decide (i < 0) then None else a !! Z.to_nat i.

(** [a[i] = v] on an index known to be in range *)
Definition Uint8Array_set (a : list Z) (i v : Z) : list Z :=
  if decide (i < 0) then a else <[Z.to_nat i := v mod 256]> a.

(** [a.fill(0)] *)
Definition Uint8Array_fill0 (a : list Z) : list Z := map (fun _ => 0) a.

Definition String_fromCharCode (b : Z) : ascii := ascii_of_N (Z.to_N b).
Definition charCodeAt0 (c : ascii) : Z := Z.of_N (N_of_ascii c).

End JS.

(** ** Base64: [btoa] and [atob] *)

Module Base64.

Definition alphabet : list ascii :=
  list_ascii_of_string
    "ABCDEFGHIJKLMNOPQRSTUVWXYZabcdefghijklmnopqrstuvwxyz0123456789+/".

Definition pad : ascii := "="%char.

Definition char_of_sextet (n : Z) : ascii := nth (Z.to_nat n) alphabet pad.

Fixpoint index_of (c : ascii) (l : list ascii) (i : Z) : option Z :=
  match l with
  | [] => None
  | d :: l' => if Ascii.eqb c d then Some i else index_of c l' (i + 1)
  end.

Definition sextet_of_char (c : ascii) : option Z := index_of c alphabet 0.

(** Three bytes give four sextets; one or two trailing bytes give two or
    three sextets, the missing low bits being zero. *)
Fixpoint sextets_of_bytes (l : list Z) : list Z :=
  match l with
  | [] => []
  | [a] => [a / 4; (a mod 4) * 16]
  | [a; b] => [a / 4; (a mod 4) * 16 + b / 16; (b mod 16) * 4]
  | a :: b :: c :: rest =>
      [a / 4; (a mod 4) * 16 + b / 16; (b mod 16) * 4 + c / 64; c mod 64]
        ++ sextets_of_bytes rest
  end.

Definition padding (n : nat) : list ascii :=
  match (n mod 3)%nat with
  | 1%nat => [pad; pad]
  | 2%nat => [pad]
  | _ => []
  end.

Definition btoa (s : string) : string :=
  let bytes := map JS.charCodeAt0 (list_ascii_of_string s) in
  string_of_list_ascii
    (map char_of_sextet (sextets_of_bytes bytes) ++ padding (length bytes)).

Definition is_whitespace (c : ascii) : bool :=
  match N_of_ascii c with
  | 9%N | 10%N | 12%N | 13%N | 32%N => true
  | _ => false
  end.

(** Drop one or two trailing ['='] when the length is a multiple of 4. *)
Definition strip_padding (l : list ascii) : list ascii :=
  if decide ((length l mod 4)%nat = 0%nat) then
    match rev l with
    | c1 :: c2 :: r =>
        if Ascii.eqb c1 pad then
          if Ascii.eqb c2 pad then rev r else rev (c2 :: r)
        else l
    | _ => l
    end
  else l.

(** Four sextets give three bytes; three give two and two give one, the
    surplus low bits being discarded. *)
Fixpoint bytes_of_sextets (l : list Z) : list Z :=
  match l with
  | s1 :: s2 :: s3 :: s4 :: rest =>
      [s1 * 4 + s2 / 16; (s2 mod 16) * 16 + s3 / 4; (s3 mod 4) * 64 + s4]
        ++ bytes_of_sextets rest
  | [s1; s2; s3] => [s1 * 4 + s2 / 16; (s2 mod 16) * 16 + s3 / 4]
  | [s1; s2] => [s1 * 4 + s2 / 16]
  | _ => []
  end.

(** [atob]: [None] is the [InvalidCharacterError] exception. *)
Definition atob (s : string) : option string :=
  let data := filter (fun c => is_whitespace c = false) (list_ascii_of_string s) in
  let data := strip_padding data in
  if decide ((length data mod 4)%nat = 1%nat) then None
  else
    sextets ← mapM sextet_of_char data;
    Some (string_of_list_ascii (map JS.String_fromCharCode (bytes_of_sextets sextets))).

End Base64.

(** ** src/optimal.ts *)

Import JS.

Record OptimalParams : Type := { size : R; hashCount : R }.

(** The function has no failure path of its own: it is a [Normal]
    completion for every pair of numbers. *)
Definition calculateOptimalParams (capacity errorRate : R)
  : completion OptimalParams :=
  (* m = -n * ln(p) / (ln(2)^2) *)
  let size := Math_ceil ((- capacity * Math_log errorRate) / (Math_LN2 * Math_LN2)) in
  (* k = (m/n) * ln(2) *)
  let hashCount := Math_round ((size / capacity) * Math_LN2) in
  Normal {| size := size; hashCount := hashCount |}.

(** ** The BloomSift class *)

Inductive item : Type :=
| ItemString (s : string)
| ItemBytes (b : list Z).

Record BloomSift : Type := {
  bits : list Z;
  _size : R;
  _hashCount : R;
  _capacity : R;
  _count : R
}.

(** The argument of [deserialize]: an object whose fields may be absent or
    ill-typed.  [data_bits = None] is a [bits] that is not a string. *)
Record SerializedBloomSift : Type := {
  data_bits : option string;
  data_size : option R;
  data_hashCount : option R;
  data_count : option R;
  data_capacity : option R
}.

Definition BloomSift_new (capacity errorRate : R) : completion BloomSift :=
  if decide (capacity <= 0)%R then Throw "capacity must be positive"
  else if bool_decide (errorRate <= 0)%R || bool_decide (1 <= errorRate)%R
  then Throw "errorRate must be between 0 and 1"
  else
    p ← calculateOptimalParams capacity errorRate;
    b ← Uint8Array_new (Math_ceil (size p / 8));
    Normal {| bits := b; _size := size p; _hashCount := hashCount p;
              _capacity := capacity; _count := 0 |}.

Definition fillRatio (f : BloomSift) : R :=
  Math_min 1 (_count f / _capacity f).

Definition setBit (bits : list Z) (index : Z) : list Z :=
  let byteIndex := index / 8 in
  let bitIndex := Z.rem index 8 in
  match Uint8Array_get bits byteIndex with
  | Some current => Uint8Array_set bits byteIndex (bor current (shl 1 bitIndex))
  | None => bits
  end.

Definition getBit (bits : list Z) (index : Z) : bool :=
  let byteIndex := index / 8 in
  let bitIndex := Z.rem index 8 in
  match Uint8Array_get bits byteIndex with
  | Some byte => negb (band byte (shl 1 bitIndex) =? 0)
  | None => false
  end.

(** The values [i] taken by [for (let i = 0; i < k; i++)]. *)
Definition for_range (k : R) : list Z :=
  map Z.of_nat (seq 0 (Z.to_nat (Zceil k))).

Fixpoint add_loop (range : list Z) (h1 h2 size : Z) (bits : list Z)
  : completion (list Z) :=
  match range with
  | [] => Normal bits
  | i :: range' =>
      r ← BigInt_rem (h1 + i * h2) size;
      add_loop range' h1 h2 size (setBit bits (Number_of_BigInt r))
  end.

Fixpoint has_loop (range : list Z) (h1 h2 size : Z) (bits : list Z)
  : completion bool :=
  match range with
  | [] => Normal true
  | i :: range' =>
      r ← BigInt_rem (h1 + i * h2) size;
      if getBit bits (Number_of_BigInt r) then has_loop range' h1 h2 size bits
      else Normal false
  end.

Section Filter.

(** The external 128-bit hash, with [{ output: 'bigint' }]. *)
Variable hash128x64 : item -> Z.

Definition hash128 (x : item) : Z * Z :=
  let hash := hash128x64 x in
  let mask64 := Z.shiftl 1 64 - 1 in
  let h1 := Z.shiftr hash 64 in
  let h2 := Z.land hash mask64 in
  (h1, h2).

Definition add (f : BloomSift) (x : item) : completion BloomSift :=
  let '(h1, h2) := hash128 x in
  size ← BigInt (_size f);
  b ← add_loop (for_range (_hashCount f)) h1 h2 size (bits f);
  Normal {| bits := b; _size := _size f; _hashCount := _hashCount f;
            _capacity := _capacity f; _count := (_count f + 1)%R |}.

Definition has (f : BloomSift) (x : item) : completion bool :=
  let '(h1, h2) := hash128 x in
  size ← BigInt (_size f);
  has_loop (for_range (_hashCount f)) h1 h2 size (bits f).

End Filter.

Definition clear (f : BloomSift) : completion BloomSift :=
  Normal {| bits := Uint8Array_fill0 (bits f); _size := _size f;
            _hashCount := _hashCount f; _capacity := _capacity f;
            _count := 0 |}.

Definition serialize (f : BloomSift) : completion SerializedBloomSift :=
  let binaryString := string_of_list_ascii (map String_fromCharCode (bits f)) in
  let bits := Base64.btoa binaryString in
  Normal {| data_bits := Some bits; data_size := Some (_size f);
            data_hashCount := Some (_hashCount f);
            data_count := Some (_count f); data_capacity := None |}.

(** [deserialize(data)]; [None] is a [data] that is [null] or [undefined]. *)
Definition deserialize (data : option SerializedBloomSift)
  : completion BloomSift :=
  match data with
  | None => Throw "Invalid serialized data: missing bits"
  | Some data =>
    match data_bits data with
    | None => Throw "Invalid serialized data: missing bits"
    | Some bits64 =>
      if nonpositive_or_not_integer (data_size data)
      then Throw "Invalid serialized data: size must be a positive integer"
      else if nonpositive_or_not_integer (data_hashCount data)
      then Throw "Invalid serialized data: hashCount must be a positive integer"
      else if negative_or_not_integer (data_count data)
      then Throw "Invalid serialized data: count must be a non-negative integer"
      else
        match Base64.atob bits64 with
        | None => Throw "InvalidCharacterError" (* thrown by atob itself *)
        | Some binaryString =>
          let bits := map charCodeAt0 (list_ascii_of_string binaryString) in
          let expectedBytes := Math_ceil (as_number (data_size data) / 8) in
          if decide (IZR (Z.of_nat (length bits)) <> expectedBytes)
          then Throw ("Invalid serialized data: expected "
                        ++ Number_toString expectedBytes ++ " bytes, got "
                        ++ Number_toString (IZR (Z.of_nat (length bits))))
          else
            _ ← BloomSift_new 1 (/ 2);
            let count := as_number (data_count data) in
            Normal {| bits := bits;
                      _size := as_number (data_size data);
                      _hashCount := as_number (data_hashCount data);
                      (* data.count || 1 *)
                      _capacity := if decide (count = 0%R) then 1%R else count;
                      _count := count |}
        end
    end
  end.

(** ** Vocabulary of the statements *)

(** A positive integer, as a property of a record field. *)
Definition positive_integer (v : option R) : Prop :=
  exists z : Z, 0 < z /\ v = Some (IZR z).

Definition nonnegative_integer (v : option R) : Prop :=
  exists z : Z, 0 <= z /\ v = Some (IZR z).

Definition byte (b : Z) : Prop := 0 <= b < 256.

(** What [setBit] stores, and what [getBit] tests. *)
Definition stored (b k : Z) : Z := bor b (shl 1 k) mod 256.
Definition tested (b k : Z) : bool := negb (band b (shl 1 k) =? 0).

Definition byte_ops_check (b k : Z) : bool :=
  (stored b k =? Z.lor b (2 ^ k)) && (stored b k <? 256)
  && Bool.eqb (tested b k) (Z.testbit b k).

(** A bit array that can hold [m] bits. *)
Definition holds_bits (m : Z) (bits : list Z) : Prop :=
  m <= 8 * Z.of_nat (length bits) /\ Forall byte bits.

(** The bit positions probed for one item: [(h1 + i * h2) % size] for the
    loop values [i]. *)
Definition indices (range : list Z) (h1 h2 size : Z) : list Z :=
  map (fun i => Z.rem (h1 + i * h2) size) range.

(** The invariant of a filter: integer fields, at least one bit, and a
    byte array of [ceil(size / 8)] bytes. *)
Definition wf (f : BloomSift) : Prop :=
  exists m k c : Z,
    1 <= m /\ 0 <= k /\ 0 <= c
    /\ _size f = IZR m /\ _hashCount f = IZR k /\ _count f = IZR c
    /\ Z.of_nat (length (bits f)) = (m + 7) / 8
    /\ Forall byte (bits f)
    /\ (0 < _capacity f)%R.

Section Reachable.

Variable hash128x64 : item -> Z.

(** A sequence of [add] calls. *)
Fixpoint add_all (f : BloomSift) (xs : list item) : completion BloomSift :=
  match xs with
  | [] => Normal f
  | x :: xs' => f' ← add hash128x64 f x; add_all f' xs'
  end.

(** The filters a program can hold: built by the constructor or by
    [deserialize], then mutated by [add] and [clear]. *)
Inductive constructed : BloomSift -> Prop :=
| constructed_new capacity errorRate f :
    BloomSift_new capacity errorRate = Normal f -> constructed f
| constructed_deserialize data f :
    deserialize data = Normal f -> constructed f
| constructed_add f x f' :
    constructed f -> add hash128x64 f x = Normal f' -> constructed f'
| constructed_clear f f' :
    constructed f -> clear f = Normal f' -> constructed f'.

End Reachable.

(** The contract of the hash primitive: an unsigned 128-bit value. *)
Definition hash_contract (hash128x64 : item -> Z) : Prop :=
  forall x, 0 <= hash128x64 x < 2 ^ 128.

(** The bit positions [add] sets and [has] tests for an item. *)
Definition probes (hash128x64 : item -> Z) (f : BloomSift) (x : item) : list Z :=
  indices (for_range (_hashCount f))
    (fst (hash128 hash128x64 x)) (snd (hash128 hash128x64 x)) (Zfloor (_size f)).

(** The parameters the constructor derives, as integers. *)
Definition optimal_size (capacity errorRate : R) : Z :=
  Zceil ((- capacity * ln errorRate) / (ln 2 * ln 2)).
Definition optimal_hashCount (capacity errorRate : R) : Z :=
  Zfloor (IZR (optimal_size capacity errorRate) / capacity * ln 2 + / 2).

Definition sextet (n : Z) : Prop := 0 <= n < 64.

(** The facts about one sextet that the base64 round trip relies on. *)
Definition sextet_check (n : Z) : bool :=
  negb (Base64.is_whitespace (Base64.char_of_sextet n))
  && negb (Ascii.eqb (Base64.char_of_sextet n) Base64.pad)
  && match Base64.sextet_of_char (Base64.char_of_sextet n) with
     | Some n' => n' =? n
     | None => false
     end.

(** The filter [deserialize] builds from validated fields. *)
Definition restored (bytes : list Z) (m k c : Z) : BloomSift :=
  {| bits := bytes; _size := IZR m; _hashCount := IZR k;
     _capacity := if decide (IZR c = 0%R) then 1%R else IZR c;
     _count := IZR c |}.

(** The bytes a base64 text decodes to. *)
Definition decoded_bytes (bits64 : string) : option (list Z) :=
  s ← Base64.atob bits64; Some (map charCodeAt0 (list_ascii_of_string s)).

Definition length_message (expected actual : Z) : string :=
  "Invalid serialized data: expected "
    ++ NilZero.string_of_int (Z.to_int expected) ++ " bytes, got "
    ++ NilZero.string_of_int (Z.to_int actual).

(** The state [add] leaves behind on a well-formed filter. *)
Definition added (hash128x64 : item -> Z) (f : BloomSift) (x : item) : BloomSift :=
  {| bits := fold_left setBit (probes hash128x64 f x) (bits f);
     _size := _size f; _hashCount := _hashCount f;
     _capacity := _capacity f; _count := (_count f + 1)%R |}.

(** A bit array with no bit set. *)
Definition all_clear (bits : list Z) : Prop := Forall (fun b => b = 0) bits.

(** ** Rational enclosures of the natural logarithm

    [ln x <= 2^n * (r - 1)] as soon as [x <= r^(2^n)]; the root [r] is
    found by [n] integer square roots on fixed-point numbers with
    denominator [s], each rounded up. *)

Module LnBounds.

Fixpoint root_up (s : Z) (n : nat) (d : Z) : Z :=
  match n with
  | O => d
  | S n' => root_up s n' (Z.sqrt_up (d * s))
  end.

(** [ln (num / den) <= ln_upper s n num den / s] *)
Definition ln_upper (s : Z) (n : nat) (num den : Z) : Z :=
  2 ^ Z.of_nat n * (root_up s n ((num * s + den - 1) / den) - s).

(** 128 fractional bits and 40 square roots. *)
Definition scale : Z := 2 ^ 128.
Definition steps : nat := 40.

(** Closed integer comparisons are decided by evaluation. *)
Ltac decide_Z := vm_compute; first [reflexivity | discriminate].

End LnBounds.

(** ** Concrete inputs used to exercise the statements *)

(** A stand-in for the hash primitive: any function into 128 bits will
    do, the statements hold for every one. *)
Definition sample_hash (x : item) : Z :=
  match x with
  | ItemString s => (Z.of_nat (String.length s) * 18446744073709551629 + 5) mod 2 ^ 128
  | ItemBytes b => (Z.of_nat (length b) * 18446744073709551653 + 11) mod 2 ^ 128
  end.

(** The record of the repository's validation tests with consistent
    fields: one zero byte, eight bits. *)
Definition sample_record : SerializedBloomSift :=
  {| data_bits := Some "AA=="%string; data_size := Some 8%R;
     data_hashCount := Some 7%R; data_count := Some 0%R;
     data_capacity := None |}.

(** [size = 100] needs 13 bytes; the text holds one. *)
Definition short_record : SerializedBloomSift :=
  {| data_bits := Some "AA=="%string; data_size := Some 100%R;
     data_hashCount := Some 7%R; data_count := Some 0%R;
     data_capacity := Some 100%R |}.

(** The record of the test "should reject invalid capacity". *)
Definition zero_capacity_record : SerializedBloomSift :=
  {| data_bits := Some "AA=="%string; data_size := Some 8%R;
     data_hashCount := Some 7%R; data_count := Some 0%R;
     data_capacity := Some 0%R |}.

(** A record with a positive count. *)
Definition counted_record : SerializedBloomSift :=
  {| data_bits := Some "AQ=="%string; data_size := Some 8%R;
     data_hashCount := Some 7%R; data_count := Some 5%R;
     data_capacity := None |}.

(** The filter [deserialize] restores from [sample_record]: eight bits in
    one byte, none of them set, seven hashes. *)
Definition sample_filter : BloomSift := restored [0] 8 7 0.

(** The same parameters with every bit set and a count of 3. *)
Definition full_filter : BloomSift := restored [255] 8 7 3.

Definition full_record : SerializedBloomSift :=
  {| data_bits := Some "/w=="%string; data_size := Some 8%R;
     data_hashCount := Some 7%R; data_count := Some 3%R;
     data_capacity := None |}.

(** ** The constructor on numbers that may be NaN

    The definitions above take their numbers in [R].  The guards of the
    constructor are comparisons, and every comparison with NaN is false:
    the constructor is therefore modelled a second time, over numbers
    that are finite or NaN.  On finite numbers the two models agree
    (lemma [BloomSift_new_finite]).

    An operator applied to finite operands is the operator of [R]; the
    results that leave the finite numbers in JavaScript (a division by
    zero, the logarithm of zero) keep the conventions of [R].  The
    constructor reaches none of them once its guards have passed. *)

Module NaNAware.

Inductive number : Type :=
| Num (x : R)
| NaN.

(** An operator or a [Math] function yields NaN as soon as an operand
    is NaN. *)
Definition lift1 (op : R -> R) (a : number) : number :=
  match a with
  | Num x => Num (op x)
  | NaN => NaN
  end.

Definition lift2 (op : R -> R -> R) (a b : number) : number :=
  match a, b with
  | Num x, Num y => Num (op x y)
  | _, _ => NaN
  end.

(** [-a], [a * b], [a / b] *)
Definition neg : number -> number := lift1 Ropp.
Definition mul : number -> number -> number := lift2 Rmult.
Definition div : number -> number -> number := lift2 Rdiv.

Definition Math_LN2 : number := Num JS.Math_LN2.
(** [Math.log] of a negative number is NaN. *)
Definition Math_log (a : number) : number :=
  match a with
  | Num x => if decide (x < 0)%R then NaN else Num (JS.Math_log x)
  | NaN => NaN
  end.
Definition Math_ceil : number -> number := lift1 JS.Math_ceil.
Definition Math_round : number -> number := lift1 JS.Math_round.
Definition Math_min : number -> number -> number := lift2 JS.Math_min.

(** [a <= b], [a >= b], [a < b]: false as soon as an operand is NaN. *)
Definition le (a b : number) : bool :=
  match a, b with
  | Num x, Num y => bool_decide (x <= y)%R
  | _, _ => false
  end.

Definition ge (a b : number) : bool :=
  match a, b with
  | Num x, Num y => bool_decide (y <= x)%R
  | _, _ => false
  end.


(** The integer part of a number; NaN is read as 0. *)
Definition ToIntegerOrInfinity (a : number) : Z :=
  match a with
  | Num x => JS.ToIntegerOrInfinity x
  | NaN => 0
  end.

(** [new Uint8Array(len)] *)
Definition Uint8Array_new (len : number) : completion (list Z) :=
  let n := ToIntegerOrInfinity len in
  if decide (n < 0) then Throw "RangeError: Invalid typed array length"
  else Normal (replicate (Z.to_nat n) 0).

Record OptimalParams : Type := { size : number; hashCount : number }.

Definition calculateOptimalParams (capacity errorRate : number)
  : completion OptimalParams :=
  (* m = -n * ln(p) / (ln(2)^2) *)
  let size := Math_ceil (div (mul (neg capacity) (Math_log errorRate))
                             (mul Math_LN2 Math_LN2)) in
  (* k = (m/n) * ln(2) *)
  let hashCount := Math_round (mul (div size capacity) Math_LN2) in
  Normal {| size := size; hashCount := hashCount |}.

Record BloomSift : Type := {
  bits : list Z;
  _size : number;
  _hashCount : number;
  _capacity : number;
  _count : number
}.

Definition BloomSift_new (capacity errorRate : number) : completion BloomSift :=
  if le capacity (Num 0) then Throw "capacity must be positive"
  else if le errorRate (Num 0) || ge errorRate (Num 1)
  then Throw "errorRate must be between 0 and 1"
  else
    p ← calculateOptimalParams capacity errorRate;
    b ← Uint8Array_new (Math_ceil (div (size p) (Num 8)));
    Normal {| bits := b; _size := size p; _hashCount := hashCount p;
              _capacity := capacity; _count := Num 0 |}.

Definition fillRatio (f : BloomSift) : number :=
  Math_min (Num 1) (div (_count f) (_capacity f)).

End NaNAware.


(** * Properties *)

(** ** Numbers, loops and bit operations *)

Module JSFacts.

Lemma Zceil_IZR (z : Z) : Zceil (IZR z) = z.
Proof. apply Zceil_eq. lra. Qed.

Lemma ToIntegerOrInfinity_IZR (z : Z) : ToIntegerOrInfinity (IZR z) = z.
Proof.
  unfold ToIntegerOrInfinity.
  destruct (decide (0 <= IZR z)%R); [apply ZfloorZ | apply Zceil_IZR].
Qed.

Lemma Number_isInteger_IZR (z : Z) : Number_isInteger (IZR z) = true.
Proof.
  unfold Number_isInteger. apply bool_decide_eq_true. now rewrite ZfloorZ.
Qed.

Lemma Number_isInteger_spec (x : R) :
  Number_isInteger x = true <-> exists z : Z, x = IZR z.
Proof.
  split.
  - intros H. apply bool_decide_eq_true in H. eauto.
  - intros [z ->]. apply Number_isInteger_IZR.
Qed.

Lemma BigInt_IZR (z : Z) : BigInt (IZR z) = Normal z.
Proof. unfold BigInt. now rewrite Number_isInteger_IZR, ZfloorZ. Qed.

Lemma BigInt_rem_nonzero (a b : Z) : b <> 0 -> BigInt_rem a b = Normal (Z.rem a b).
Proof. intros H. unfold BigInt_rem. now destruct (decide (b = 0)). Qed.

Lemma nonpositive_or_not_integer_false (v : option R) :
  nonpositive_or_not_integer v = false <-> positive_integer v.
Proof.
  unfold nonpositive_or_not_integer, positive_integer.
  destruct v as [x|]; [|split; [discriminate | intros (z & _ & ?); discriminate]].
  rewrite orb_false_iff, negb_false_iff, bool_decide_eq_false, Number_isInteger_spec.
  split.
  - intros [Hpos [z ->]]. exists z. split; [|reflexivity].
    apply lt_IZR. lra.
  - intros (z & Hz & [= ->]). split; [|eauto].
    apply IZR_lt in Hz. lra.
Qed.

Lemma negative_or_not_integer_false (v : option R) :
  negative_or_not_integer v = false <-> nonnegative_integer v.
Proof.
  unfold negative_or_not_integer, nonnegative_integer.
  destruct v as [x|]; [|split; [discriminate | intros (z & _ & ?); discriminate]].
  rewrite orb_false_iff, negb_false_iff, bool_decide_eq_false, Number_isInteger_spec.
  split.
  - intros [Hpos [z ->]]. exists z. split; [|reflexivity].
    apply le_IZR. lra.
  - intros (z & Hz & [= ->]). split; [|eauto].
    apply IZR_le in Hz. lra.
Qed.

Lemma nonpositive_or_not_integer_true (v : option R) :
  nonpositive_or_not_integer v = true <-> ~ positive_integer v.
Proof.
  rewrite <- nonpositive_or_not_integer_false.
  destruct (nonpositive_or_not_integer v); split; congruence.
Qed.

Lemma negative_or_not_integer_true (v : option R) :
  negative_or_not_integer v = true <-> ~ nonnegative_integer v.
Proof.
  rewrite <- negative_or_not_integer_false.
  destruct (negative_or_not_integer v); split; congruence.
Qed.

(** The loop [for (let i = 0; i < k; i++)] visits exactly the integers
    [0 <= i < k], in increasing order. *)
Lemma for_range_spec (k : R) (i : Z) :
  In i (for_range k) <-> 0 <= i /\ (IZR i < k)%R.
Proof.
  unfold for_range. rewrite in_map_iff.
  pose proof (Zceil_bound k) as Hk.
  split.
  - intros (n & <- & Hn). apply in_seq in Hn. split; [lia|].
    assert (Z.of_nat n < Zceil k) as Hlt by lia.
    apply IZR_lt in Hlt.
    assert (Z.of_nat n <= Zceil k - 1) as Hle by lia.
    apply IZR_le in Hle. rewrite minus_IZR in Hle. lra.
  - intros [Hi Hlt]. exists (Z.to_nat i). split; [lia|].
    apply in_seq. split; [lia|]. simpl.
    assert (i < Zceil k); [|lia].
    apply lt_IZR. lra.
Qed.

Lemma for_range_IZR (k : Z) :
  for_range (IZR k) = map Z.of_nat (seq 0 (Z.to_nat k)).
Proof. unfold for_range. now rewrite Zceil_IZR. Qed.

Lemma for_range_nonneg (k : R) : Forall (fun i => 0 <= i) (for_range k).
Proof. apply List.Forall_forall. intros i Hi. now apply for_range_spec in Hi. Qed.

(** Exhaustive check of a boolean property over an initial segment. *)
Lemma forallb_below (n : nat) (P : Z -> bool) :
  forallb P (map Z.of_nat (seq 0 n)) = true ->
  forall z, 0 <= z < Z.of_nat n -> P z = true.
Proof.
  intros H z Hz. rewrite forallb_forall in H. apply H.
  apply in_map_iff. exists (Z.to_nat z). split; [lia|].
  apply in_seq. lia.
Qed.

Lemma byte_ops_checked b k :
  byte b -> 0 <= k < 8 ->
  stored b k = Z.lor b (2 ^ k) /\ stored b k < 256
  /\ tested b k = Z.testbit b k.
Proof.
  intros Hb Hk.
  assert (byte_ops_check b k = true) as H.
  { revert b Hb. apply (forallb_below 256). revert k Hk. apply (forallb_below 8).
    vm_compute. reflexivity. }
  unfold byte_ops_check in H.
  repeat (apply andb_true_iff in H; destruct H as [H ?]).
  repeat split; [lia | lia | now apply Bool.eqb_prop].
Qed.

Lemma byte_ops b k k' :
  byte b -> 0 <= k < 8 -> 0 <= k' < 8 ->
  byte (stored b k) /\ tested (stored b k) k = true
  /\ (tested b k' = true -> tested (stored b k) k' = true).
Proof.
  intros Hb Hk Hk'.
  destruct (byte_ops_checked b k Hb Hk) as (Hst & Hlt & _).
  assert (byte (stored b k)) as Hbyte.
  { split; [|assumption]. rewrite Hst. apply Z.lor_nonneg. unfold byte in Hb.
    split; [lia | apply Z.pow_nonneg; lia]. }
  split; [assumption|].
  destruct (byte_ops_checked (stored b k) k Hbyte Hk) as (_ & _ & ->).
  destruct (byte_ops_checked (stored b k) k' Hbyte Hk') as (_ & _ & ->).
  destruct (byte_ops_checked b k' Hb Hk') as (_ & _ & ->).
  rewrite Hst, !Z.lor_spec, !Z.pow2_bits_eqb by lia.
  rewrite Z.eqb_refl, orb_true_r. split; [reflexivity|].
  intros ->. reflexivity.
Qed.

End JSFacts.

(** ** The packed bit array *)

Module BitArray.
Import JSFacts.

Lemma rem8_range (i : Z) : 0 <= i -> 0 <= Z.rem i 8 < 8.
Proof. intros H. rewrite Z.rem_mod_nonneg by lia. apply Z.mod_pos_bound. lia. Qed.

Lemma setBit_unfold (bits : list Z) (i : Z) :
  setBit bits i =
    match Uint8Array_get bits (i / 8) with
    | Some current => Uint8Array_set bits (i / 8) (bor current (shl 1 (Z.rem i 8)))
    | None => bits
    end.
Proof. reflexivity. Qed.

Lemma get_Some (bits : list Z) (n b : Z) :
  Uint8Array_get bits n = Some b -> 0 <= n /\ bits !! Z.to_nat n = Some b.
Proof.
  unfold Uint8Array_get. destruct (decide (n < 0)); [discriminate|].
  intros H. split; [lia | assumption].
Qed.

Lemma get_in_range (bits : list Z) (i : Z) :
  0 <= i < 8 * Z.of_nat (length bits) ->
  exists b, Uint8Array_get bits (i / 8) = Some b.
Proof.
  intros Hi. unfold Uint8Array_get.
  assert (0 <= i / 8 < Z.of_nat (length bits)) as Hq.
  { split; [apply Z.div_pos; lia | apply Z.div_lt_upper_bound; lia]. }
  destruct (decide (i / 8 < 0)); [lia|].
  destruct (lookup_lt_is_Some_2 bits (Z.to_nat (i / 8))) as [b Hb]; [lia|].
  eauto.
Qed.

Lemma setBit_length (bits : list Z) (i : Z) :
  length (setBit bits i) = length bits.
Proof.
  rewrite setBit_unfold. destruct (Uint8Array_get bits (i / 8)); [|reflexivity].
  unfold Uint8Array_set. destruct (decide (i / 8 < 0)); [reflexivity|].
  apply length_insert.
Qed.

Lemma setBit_bytes (bits : list Z) (i : Z) :
  Forall byte bits -> Forall byte (setBit bits i).
Proof.
  intros Hall. rewrite setBit_unfold.
  destruct (Uint8Array_get bits (i / 8)) as [b|] eqn:Hget; [|assumption].
  unfold Uint8Array_set. destruct (decide (i / 8 < 0)); [assumption|].
  apply Forall_insert; [assumption|].
  split; [apply Z.mod_pos_bound | apply Z.mod_pos_bound]; lia.
Qed.

Lemma setBit_holds (m : Z) (bits : list Z) (i : Z) :
  holds_bits m bits -> holds_bits m (setBit bits i).
Proof.
  intros [Hlen Hall]. split; [now rewrite setBit_length | now apply setBit_bytes].
Qed.

(** The bit just set reads as set. *)
Lemma getBit_setBit_same (bits : list Z) (i : Z) :
  Forall byte bits -> 0 <= i < 8 * Z.of_nat (length bits) ->
  getBit (setBit bits i) i = true.
Proof.
  intros Hall Hi. destruct (get_in_range bits i Hi) as [b Hb].
  destruct (get_Some _ _ _ Hb) as [Hq Hlook].
  assert (byte b) as Hbyte by (eapply Forall_lookup_1; eauto).
  unfold getBit. rewrite setBit_unfold, Hb.
  unfold Uint8Array_set, Uint8Array_get. destruct (decide (i / 8 < 0)); [lia|].
  rewrite list_lookup_insert_eq by (eapply lookup_lt_Some; eauto).
  assert (0 <= Z.rem i 8 < 8) as Hk by (apply rem8_range; lia).
  destruct (byte_ops b _ _ Hbyte Hk Hk) as (_ & Hset & _). exact Hset.
Qed.

(** Setting a bit never clears another one. *)
Lemma getBit_setBit_mono (bits : list Z) (i j : Z) :
  Forall byte bits -> getBit bits j = true -> getBit (setBit bits i) j = true.
Proof.
  intros Hall Hj. rewrite setBit_unfold.
  destruct (Uint8Array_get bits (i / 8)) as [b|] eqn:Hb; [|assumption].
  destruct (get_Some _ _ _ Hb) as [Hq Hlook].
  assert (byte b) as Hbyte by (eapply Forall_lookup_1; eauto).
  unfold getBit in *. unfold Uint8Array_set, Uint8Array_get in *.
  destruct (decide (i / 8 < 0)); [lia|].
  destruct (decide (j / 8 < 0)); [discriminate|].
  destruct (decide (Z.to_nat (i / 8) = Z.to_nat (j / 8))) as [Heq|Hne].
  - rewrite <- Heq in *. rewrite Hlook in Hj.
    rewrite list_lookup_insert_eq by (eapply lookup_lt_Some; eauto).
    assert (0 <= i) as Hi0.
    { destruct (Z.neg_nonneg_cases i) as [Hneg|]; [|assumption].
      assert (i / 8 < 0) by (apply Z.div_lt_upper_bound; lia). lia. }
    assert (0 <= j) as Hj0.
    { destruct (Z.neg_nonneg_cases j) as [Hneg|]; [|assumption].
      assert (j / 8 < 0) by (apply Z.div_lt_upper_bound; lia). lia. }
    assert (0 <= Z.rem i 8 < 8) as Hki by (apply rem8_range; lia).
    assert (0 <= Z.rem j 8 < 8) as Hkj by (apply rem8_range; lia).
    destruct (byte_ops b _ _ Hbyte Hki Hkj) as (_ & _ & Hmono).
    apply Hmono. exact Hj.
  - rewrite list_lookup_insert_ne by assumption. exact Hj.
Qed.

(** Bits accumulate along any sequence of writes. *)
Lemma getBit_fold_mono (l : list Z) (bits : list Z) (j : Z) :
  Forall byte bits -> getBit bits j = true ->
  getBit (fold_left setBit l bits) j = true.
Proof.
  revert bits. induction l as [|i l IH]; intros bits Hall Hj; [exact Hj|].
  simpl. apply IH; [now apply setBit_bytes | now apply getBit_setBit_mono].
Qed.

Lemma fold_setBit_length (l : list Z) (bits : list Z) :
  length (fold_left setBit l bits) = length bits.
Proof.
  revert bits. induction l as [|i l IH]; intros bits; [reflexivity|].
  simpl. now rewrite IH, setBit_length.
Qed.

Lemma fold_setBit_bytes (l : list Z) (bits : list Z) :
  Forall byte bits -> Forall byte (fold_left setBit l bits).
Proof.
  revert bits. induction l as [|i l IH]; intros bits H; [exact H|].
  simpl. apply IH. now apply setBit_bytes.
Qed.

Lemma fold_setBit_holds (m : Z) (l : list Z) (bits : list Z) :
  holds_bits m bits -> holds_bits m (fold_left setBit l bits).
Proof.
  revert bits. induction l as [|i l IH]; intros bits H; [exact H|].
  simpl. apply IH. now apply setBit_holds.
Qed.

Lemma getBit_fold_set (l : list Z) (bits : list Z) (j : Z) :
  Forall byte bits -> In j l -> 0 <= j < 8 * Z.of_nat (length bits) ->
  getBit (fold_left setBit l bits) j = true.
Proof.
  revert bits. induction l as [|i l IH]; intros bits Hall Hin Hj; [destruct Hin|].
  simpl. destruct Hin as [->|Hin].
  - apply getBit_fold_mono; [now apply setBit_bytes|].
    now apply getBit_setBit_same.
  - apply IH; [now apply setBit_bytes | assumption | now rewrite setBit_length].
Qed.

End BitArray.

(** ** One write changes one bit *)

Module BitFrame.
Import JSFacts BitArray.

Lemma tested_stored (b k k' : Z) :
  byte b -> 0 <= k < 8 -> 0 <= k' < 8 ->
  tested (stored b k) k' = tested b k' || (k' =? k).
Proof.
  intros Hb Hk Hk'.
  destruct (byte_ops b k k' Hb Hk Hk') as (Hbyte & _ & _).
  destruct (byte_ops_checked b k Hb Hk) as (Hst & _ & _).
  destruct (byte_ops_checked (stored b k) k' Hbyte Hk') as (_ & _ & ->).
  destruct (byte_ops_checked b k' Hb Hk') as (_ & _ & ->).
  rewrite Hst, Z.lor_spec, Z.pow2_bits_eqb by lia.
  f_equal. apply Z.eqb_sym.
Qed.

Lemma stored_already (b k : Z) :
  byte b -> 0 <= k < 8 -> tested b k = true -> stored b k = b.
Proof.
  intros Hb Hk Ht.
  destruct (byte_ops_checked b k Hb Hk) as (-> & _ & Htb).
  rewrite Htb in Ht. apply Z.bits_inj'. intros n Hn.
  rewrite Z.lor_spec, Z.pow2_bits_eqb by lia.
  destruct (Z.eqb_spec k n) as [->|_]; [now rewrite Ht | apply orb_false_r].
Qed.


Lemma index_split (i : Z) : 0 <= i -> i = 8 * (i / 8) + Z.rem i 8.
Proof.
  intros Hi. rewrite Z.rem_mod_nonneg by lia. apply Z.div_mod. lia.
Qed.

Lemma div8_neg (i : Z) : i < 0 -> i / 8 < 0.
Proof. intros Hi. apply Z.div_lt_upper_bound; lia. Qed.

Lemma get_out_of_range (bits : list Z) (i : Z) :
  i < 0 \/ 8 * Z.of_nat (length bits) <= i ->
  Uint8Array_get bits (i / 8) = None.
Proof.
  intros Hi. unfold Uint8Array_get.
  destruct (decide (i / 8 < 0)); [reflexivity|].
  apply lookup_ge_None.
  destruct Hi as [Hi|Hi]; [apply div8_neg in Hi; lia|].
  assert (Z.of_nat (length bits) <= i / 8) by (apply Z.div_le_lower_bound; lia).
  lia.
Qed.

(** A position outside the array is never written and reads as unset. *)
Lemma setBit_outside (bits : list Z) (i : Z) :
  i < 0 \/ 8 * Z.of_nat (length bits) <= i -> setBit bits i = bits.
Proof. intros Hi. rewrite setBit_unfold. now rewrite get_out_of_range. Qed.

Lemma getBit_outside (bits : list Z) (i : Z) :
  i < 0 \/ 8 * Z.of_nat (length bits) <= i -> getBit bits i = false.
Proof. intros Hi. unfold getBit. now rewrite get_out_of_range. Qed.

Lemma in_or_out (bits : list Z) (i : Z) :
  0 <= i < 8 * Z.of_nat (length bits)
  \/ (i < 0 \/ 8 * Z.of_nat (length bits) <= i).
Proof. lia. Qed.

(** Writing bit [i] leaves every other bit as it was. *)
Lemma getBit_setBit_other (bits : list Z) (i j : Z) :
  Forall byte bits -> j <> i -> getBit (setBit bits i) j = getBit bits j.
Proof.
  intros Hall Hne.
  destruct (in_or_out bits i) as [Hi|Hi]; [|now rewrite setBit_outside].
  destruct (in_or_out bits j) as [Hj|Hj].
  2: { rewrite !getBit_outside; rewrite ?setBit_length; auto. }
  destruct (get_in_range bits i Hi) as [b Hb].
  destruct (get_Some _ _ _ Hb) as [Hq Hlook].
  assert (byte b) as Hbyte by (eapply Forall_lookup_1; eauto).
  rewrite setBit_unfold, Hb. unfold getBit, Uint8Array_set, Uint8Array_get.
  destruct (decide (i / 8 < 0)); [lia|].
  destruct (decide (j / 8 < 0)) as [Hneg|_]; [reflexivity|].
  destruct (decide (Z.to_nat (i / 8) = Z.to_nat (j / 8))) as [Heq|Hneq].
  - rewrite <- Heq, Hlook.
    rewrite list_lookup_insert_eq by (eapply lookup_lt_Some; eauto).
    assert (0 <= Z.rem i 8 < 8) as Hki by (apply rem8_range; lia).
    assert (0 <= Z.rem j 8 < 8) as Hkj by (apply rem8_range; lia).
    change (tested (stored b (Z.rem i 8)) (Z.rem j 8) = tested b (Z.rem j 8)).
    rewrite tested_stored by assumption.
    assert (0 <= j / 8) by (apply Z.div_pos; lia).
    assert (i / 8 = j / 8) as Hdiv by lia.
    destruct (Z.eqb_spec (Z.rem j 8) (Z.rem i 8)) as [Hrem|_]; [|apply orb_false_r].
    exfalso. apply Hne.
    rewrite (index_split i), (index_split j) by lia. lia.
  - now rewrite list_lookup_insert_ne.
Qed.

(** The exact effect of a write on what [getBit] reads. *)
Lemma getBit_setBit (bits : list Z) (i j : Z) :
  Forall byte bits -> 0 <= i < 8 * Z.of_nat (length bits) ->
  getBit (setBit bits i) j = getBit bits j || (j =? i).
Proof.
  intros Hall Hi. destruct (Z.eqb_spec j i) as [->|Hne].
  - rewrite getBit_setBit_same by assumption. now rewrite orb_true_r.
  - rewrite getBit_setBit_other by assumption. now rewrite orb_false_r.
Qed.

(** Writing a bit that is set changes nothing. *)
Lemma setBit_already_set (bits : list Z) (i : Z) :
  Forall byte bits -> getBit bits i = true -> setBit bits i = bits.
Proof.
  intros Hall Hset.
  destruct (in_or_out bits i) as [Hi|Hi]; [|now apply setBit_outside].
  destruct (get_in_range bits i Hi) as [b Hb].
  destruct (get_Some _ _ _ Hb) as [Hq Hlook].
  assert (byte b) as Hbyte by (eapply Forall_lookup_1; eauto).
  unfold getBit in Hset. rewrite setBit_unfold. rewrite Hb in *.
  unfold Uint8Array_set. destruct (decide (i / 8 < 0)); [reflexivity|].
  change (bor b (shl 1 (Z.rem i 8)) mod 256) with (stored b (Z.rem i 8)).
  rewrite stored_already; [now apply list_insert_id | assumption
                          | apply rem8_range; lia | exact Hset].
Qed.


End BitFrame.

(** ** Runs of writes *)

Module BitRuns.
Import JSFacts BitArray BitFrame.

Lemma all_clear_bytes (bits : list Z) : all_clear bits -> Forall byte bits.
Proof.
  intros H. eapply List.Forall_impl; [|exact H].
  intros b ->. unfold byte. lia.
Qed.

Lemma getBit_all_clear (bits : list Z) (j : Z) :
  all_clear bits -> getBit bits j = false.
Proof.
  intros Hall. unfold getBit.
  destruct (Uint8Array_get bits (j / 8)) as [b|] eqn:Hb; [|reflexivity].
  destruct (get_Some _ _ _ Hb) as [_ Hlook].
  rewrite (Forall_lookup_1 _ _ _ _ Hall Hlook). reflexivity.
Qed.

Lemma fill0_all_clear (bits : list Z) : all_clear (Uint8Array_fill0 bits).
Proof.
  unfold all_clear, Uint8Array_fill0. apply List.Forall_map, List.Forall_forall.
  reflexivity.
Qed.

Lemma replicate_all_clear (n : nat) : all_clear (replicate n 0).
Proof. now apply Forall_replicate. Qed.

(** A run over positions that are all set changes nothing. *)
Lemma fold_setBit_identity (l : list Z) (bits : list Z) :
  Forall byte bits -> (forall j, In j l -> getBit bits j = true) ->
  fold_left setBit l bits = bits.
Proof.
  intros Hall. induction l as [|i l IH]; intros Hset; [reflexivity|].
  simpl. rewrite setBit_already_set by (auto using in_eq).
  apply IH. intros j Hj. apply Hset. now right.
Qed.

(** A bit set after a run was set before it or is one of its positions. *)
Lemma getBit_fold_inv (l : list Z) (bits : list Z) (j : Z) :
  Forall byte bits -> getBit (fold_left setBit l bits) j = true ->
  getBit bits j = true \/ In j l.
Proof.
  revert bits. induction l as [|i l IH]; intros bits Hall Hj; [now left|].
  simpl in Hj. apply IH in Hj; [|now apply setBit_bytes].
  destruct Hj as [Hj|Hj]; [|right; now right].
  destruct (Z.eq_dec j i) as [->|Hne]; [right; now left|].
  left. now rewrite getBit_setBit_other in Hj.
Qed.



End BitRuns.

(** ** [atob] inverts [btoa] *)

Module Base64Facts.
Import Base64 JSFacts.

Lemma list_ind3 {A} (P : list A -> Prop) :
  P [] -> (forall a, P [a]) -> (forall a b, P [a; b]) ->
  (forall a b c l, P l -> P (a :: b :: c :: l)) ->
  forall l, P l.
Proof.
  intros H0 H1 H2 H3 l.
  assert (P l /\ (forall a, P (a :: l)) /\ (forall a b, P (a :: b :: l))) as H;
    [|apply H].
  induction l as [|x l (IH0 & IH1 & IH2)]; [auto|].
  repeat split; auto.
Qed.

Lemma sextet_facts (n : Z) :
  0 <= n < 64 ->
  is_whitespace (char_of_sextet n) = false
  /\ char_of_sextet n <> pad
  /\ sextet_of_char (char_of_sextet n) = Some n.
Proof.
  intros Hn.
  assert (sextet_check n = true) as H.
  { revert n Hn. apply (forallb_below 64). vm_compute. reflexivity. }
  unfold sextet_check in H.
  apply andb_true_iff in H. destruct H as [H H3].
  apply andb_true_iff in H. destruct H as [H1 H2].
  apply negb_true_iff in H1, H2.
  repeat split; [assumption | now apply Ascii.eqb_neq |].
  destruct (sextet_of_char (char_of_sextet n)) as [n'|]; [|discriminate].
  apply Z.eqb_eq in H3. now subst.
Qed.

Lemma sextets_of_bytes_range (l : list Z) :
  Forall byte l -> Forall sextet (sextets_of_bytes l).
Proof.
  unfold byte, sextet.
  induction l as [|a|a b|a b c l IH] using list_ind3; intros Hall; simpl.
  - constructor.
  - inversion_clear Hall.
    repeat constructor; Z.div_mod_to_equations; lia.
  - inversion_clear Hall as [|? ? ? Hb]. inversion_clear Hb.
    repeat constructor; Z.div_mod_to_equations; lia.
  - inversion_clear Hall as [|? ? ? Hb]. inversion_clear Hb as [|? ? ? Hc].
    inversion_clear Hc.
    repeat (constructor; [Z.div_mod_to_equations; lia|]). now apply IH.
Qed.

Lemma bytes_of_sextets_of_bytes (l : list Z) :
  Forall byte l -> bytes_of_sextets (sextets_of_bytes l) = l.
Proof.
  unfold byte.
  induction l as [|a|a b|a b c l IH] using list_ind3; intros Hall.
  - reflexivity.
  - inversion_clear Hall. simpl. f_equal. Z.div_mod_to_equations; lia.
  - inversion_clear Hall as [|? ? ? Hb]. inversion_clear Hb. simpl.
    f_equal; [|f_equal]; Z.div_mod_to_equations; lia.
  - inversion_clear Hall as [|? ? ? Hb]. inversion_clear Hb as [|? ? ? Hc].
    inversion_clear Hc.
    change (sextets_of_bytes (a :: b :: c :: l))
      with ([a / 4; (a mod 4) * 16 + b / 16; (b mod 16) * 4 + c / 64; c mod 64]
              ++ sextets_of_bytes l).
    change (bytes_of_sextets ([a / 4; (a mod 4) * 16 + b / 16;
                               (b mod 16) * 4 + c / 64; c mod 64]
                                ++ sextets_of_bytes l))
      with ([a / 4 * 4 + ((a mod 4) * 16 + b / 16) / 16;
             (((a mod 4) * 16 + b / 16) mod 16) * 16 + ((b mod 16) * 4 + c / 64) / 4;
             (((b mod 16) * 4 + c / 64) mod 4) * 64 + c mod 64]
              ++ bytes_of_sextets (sextets_of_bytes l)).
    rewrite IH by assumption. simpl.
    f_equal; [|f_equal; [|f_equal]]; Z.div_mod_to_equations; lia.
Qed.

(** Lengths: [3q + r] bytes give [4q], [4q + 2] or [4q + 3] sextets. *)
Lemma sextets_of_bytes_length (l : list Z) :
  exists q : nat,
    (length l = 3 * q + 0 /\ length (sextets_of_bytes l) = 4 * q + 0
     \/ length l = 3 * q + 1 /\ length (sextets_of_bytes l) = 4 * q + 2
     \/ length l = 3 * q + 2 /\ length (sextets_of_bytes l) = 4 * q + 3)%nat.
Proof.
  induction l as [|a|a b|a b c l [q IH]] using list_ind3.
  - exists 0%nat. simpl. lia.
  - exists 0%nat. simpl. lia.
  - exists 0%nat. simpl. lia.
  - exists (S q). simpl length. lia.
Qed.

Lemma mod_add_small (d q r : nat) : (r < d)%nat -> ((d * q + r) mod d)%nat = r.
Proof.
  intros Hr. rewrite Nat.add_comm, Nat.mul_comm, Nat.Div0.mod_add.
  now apply Nat.mod_small.
Qed.

Lemma strip_padding_two (body : list ascii) (q : nat) :
  length body = (4 * q + 2)%nat -> strip_padding (body ++ [pad; pad]) = body.
Proof.
  intros Hlen. unfold strip_padding.
  assert (length (body ++ [pad; pad]) = (4 * (q + 1) + 0)%nat) as ->.
  { rewrite length_app. simpl. lia. }
  rewrite mod_add_small by lia.
  destruct (decide (0%nat = 0%nat)); [|congruence].
  rewrite rev_app_distr. simpl. now rewrite rev_involutive.
Qed.

Lemma strip_padding_one (body : list ascii) (c : ascii) (q : nat) :
  length (body ++ [c]) = (4 * q + 3)%nat -> c <> pad ->
  strip_padding ((body ++ [c]) ++ [pad]) = body ++ [c].
Proof.
  intros Hlen Hc. unfold strip_padding.
  assert (length ((body ++ [c]) ++ [pad]) = (4 * (q + 1) + 0)%nat) as ->.
  { rewrite length_app, Hlen. simpl. lia. }
  rewrite mod_add_small by lia.
  destruct (decide (0%nat = 0%nat)); [|congruence].
  rewrite !rev_app_distr. simpl.
  apply Ascii.eqb_neq in Hc. rewrite Hc.
  simpl. now rewrite rev_involutive.
Qed.

Lemma strip_padding_none (body : list ascii) :
  (forall b c, body = b ++ [c] -> c <> pad) -> strip_padding body = body.
Proof.
  intros Hlast. unfold strip_padding.
  destruct (decide ((length body mod 4)%nat = 0%nat)); [|reflexivity].
  destruct (rev body) as [|c1 [|c2 r]] eqn:Hrev; [reflexivity | reflexivity |].
  assert (body = rev (c2 :: r) ++ [c1]) as Hbody.
  { rewrite <- (rev_involutive body), Hrev. reflexivity. }
  apply Hlast in Hbody. apply Ascii.eqb_neq in Hbody. now rewrite Hbody.
Qed.

Lemma mapM_sextet_of_char (sx : list Z) :
  Forall sextet sx -> mapM sextet_of_char (map char_of_sextet sx) = Some sx.
Proof.
  induction 1 as [|n sx Hn _ IH]; [reflexivity|].
  simpl. destruct (sextet_facts n Hn) as (_ & _ & ->). simpl.
  rewrite IH. reflexivity.
Qed.

Lemma filter_no_whitespace (l : list ascii) :
  Forall (fun c => is_whitespace c = false) l ->
  filter (fun c => is_whitespace c = false) l = l.
Proof.
  induction 1 as [|c l Hc _ IH]; [reflexivity|].
  rewrite filter_cons. destruct (decide (is_whitespace c = false)); congruence.
Qed.

Lemma last_of_map_not_pad (sx : list Z) (b : list ascii) (c : ascii) :
  Forall sextet sx -> map char_of_sextet sx = b ++ [c] -> c <> pad.
Proof.
  intros Hall Heq.
  assert (In c (map char_of_sextet sx)) as Hin.
  { rewrite Heq. apply in_or_app. right. now left. }
  apply in_map_iff in Hin. destruct Hin as (n & <- & Hn).
  rewrite List.Forall_forall in Hall. now apply sextet_facts, Hall.
Qed.

(** Decoding the encoding of a byte sequence gives the sequence back. *)
Lemma decode_encode (bytes : list Z) :
  Forall byte bytes ->
  let encoded := map char_of_sextet (sextets_of_bytes bytes) ++ padding (length bytes) in
  let data := strip_padding (filter (fun c => is_whitespace c = false) encoded) in
  (length data mod 4)%nat <> 1%nat
  /\ mapM sextet_of_char data = Some (sextets_of_bytes bytes).
Proof.
  intros Hbytes encoded data.
  pose proof (sextets_of_bytes_range bytes Hbytes) as Hsx.
  set (body := map char_of_sextet (sextets_of_bytes bytes)) in *.
  assert (Forall (fun c => is_whitespace c = false) body) as Hws.
  { unfold body. apply List.Forall_forall. intros c Hc. apply in_map_iff in Hc.
    destruct Hc as (n & <- & Hn). rewrite List.Forall_forall in Hsx.
    now apply sextet_facts, Hsx. }
  assert (length body = length (sextets_of_bytes bytes)) as Hlen
    by apply length_map.
  assert (data = body /\ (length body mod 4)%nat <> 1%nat) as [Hdata Hmod].
  { unfold data, encoded, padding.
    destruct (sextets_of_bytes_length bytes) as (q & [[Hb Hs]|[[Hb Hs]|[Hb Hs]]]).
    - rewrite Hb, (mod_add_small 3 q 0) by lia. rewrite app_nil_r.
      rewrite filter_no_whitespace by assumption.
      rewrite Hlen, Hs, (mod_add_small 4 q 0) by lia.
      split; [|lia]. apply strip_padding_none.
      intros b c Hbc. now apply (last_of_map_not_pad _ b c Hsx).
    - rewrite Hb, (mod_add_small 3 q 1) by lia.
      rewrite filter_no_whitespace
        by (apply Forall_app; split; [assumption | repeat constructor]).
      rewrite Hlen, Hs, (mod_add_small 4 q 2) by lia.
      split; [|lia]. apply (strip_padding_two body q). lia.
    - rewrite Hb, (mod_add_small 3 q 2) by lia.
      rewrite filter_no_whitespace
        by (apply Forall_app; split; [assumption | repeat constructor]).
      rewrite Hlen, Hs, (mod_add_small 4 q 3) by lia.
      split; [|lia].
      destruct body as [|c0 body'] eqn:Hbody using rev_ind; [simpl in Hlen; lia|].
      apply (strip_padding_one _ _ q); [lia|].
      now apply (last_of_map_not_pad _ body' c0 Hsx). }
  rewrite Hdata. split; [assumption|]. now apply mapM_sextet_of_char.
Qed.

Lemma charCodeAt0_byte (c : ascii) : byte (charCodeAt0 c).
Proof.
  unfold byte, charCodeAt0. pose proof (N_ascii_bounded c). lia.
Qed.

Lemma fromCharCode_charCodeAt0 (c : ascii) : String_fromCharCode (charCodeAt0 c) = c.
Proof.
  unfold String_fromCharCode, charCodeAt0. rewrite N2Z.id. apply ascii_N_embedding.
Qed.

Lemma charCodeAt0_fromCharCode (b : Z) : byte b -> charCodeAt0 (String_fromCharCode b) = b.
Proof.
  unfold byte, String_fromCharCode, charCodeAt0. intros Hb.
  rewrite N_ascii_embedding by lia. lia.
Qed.

Lemma chars_of_bytes_bytes (l : list Z) :
  Forall byte l -> map charCodeAt0 (map String_fromCharCode l) = l.
Proof.
  induction 1 as [|b l Hb _ IH]; [reflexivity|].
  simpl. now rewrite charCodeAt0_fromCharCode, IH.
Qed.

Lemma bytes_of_chars_byte (l : list ascii) : Forall byte (map charCodeAt0 l).
Proof. apply List.Forall_map, List.Forall_forall. intros c _. apply charCodeAt0_byte. Qed.

Lemma atob_btoa (s : string) : atob (btoa s) = Some s.
Proof.
  unfold atob, btoa. rewrite list_ascii_of_string_of_list_ascii.
  set (bytes := map charCodeAt0 (list_ascii_of_string s)).
  assert (Forall byte bytes) as Hbytes by apply bytes_of_chars_byte.
  destruct (decode_encode bytes Hbytes) as [Hmod Hmap].
  destruct (decide (_ = 1%nat)) as [Habs|_]; [contradiction|].
  rewrite Hmap. simpl. rewrite bytes_of_sextets_of_bytes by assumption.
  unfold bytes. rewrite map_map.
  rewrite (map_ext _ (fun c => c)) by apply fromCharCode_charCodeAt0.
  now rewrite map_id, string_of_list_ascii_of_string.
Qed.

End Base64Facts.

(** ** The probe loops of [add] and [has] *)

Module Loops.
Import JSFacts BitArray.

Lemma add_loop_indices (range : list Z) (h1 h2 size : Z) (bits : list Z) :
  size <> 0 ->
  add_loop range h1 h2 size bits
  = Normal (fold_left setBit (indices range h1 h2 size) bits).
Proof.
  intros Hsize. revert bits.
  induction range as [|i range IH]; intros bits; [reflexivity|].
  simpl. rewrite BigInt_rem_nonzero by assumption. simpl. apply IH.
Qed.

Lemma has_loop_indices (range : list Z) (h1 h2 size : Z) (bits : list Z) :
  size <> 0 ->
  has_loop range h1 h2 size bits
  = Normal (forallb (getBit bits) (indices range h1 h2 size)).
Proof.
  intros Hsize.
  induction range as [|i range IH]; [reflexivity|].
  simpl. rewrite BigInt_rem_nonzero by assumption. simpl.
  unfold Number_of_BigInt. destruct (getBit bits _); [apply IH | reflexivity].
Qed.

(** Every probed position is a valid bit number. *)
Lemma indices_in_range (range : list Z) (h1 h2 size : Z) :
  0 <= h1 -> 0 <= h2 -> 0 < size -> Forall (fun i => 0 <= i) range ->
  Forall (fun j => 0 <= j < size) (indices range h1 h2 size).
Proof.
  intros Hh1 Hh2 Hsize Hrange. unfold indices.
  apply List.Forall_forall. intros j Hj. apply in_map_iff in Hj.
  destruct Hj as (i & <- & Hi).
  rewrite List.Forall_forall in Hrange. specialize (Hrange i Hi).
  rewrite Z.rem_mod_nonneg by nia. apply Z.mod_pos_bound. lia.
Qed.

Lemma hash128_nonneg (hash128x64 : item -> Z) (x : item) :
  hash_contract hash128x64 ->
  0 <= fst (hash128 hash128x64 x) /\ 0 <= snd (hash128 hash128x64 x).
Proof.
  intros Hc. specialize (Hc x). unfold hash128. simpl. split.
  - apply Z.shiftr_nonneg. lia.
  - apply Z.land_nonneg. left. lia.
Qed.

End Loops.

(** ** Enclosures of [ln] *)

Module LnBoundsFacts.
Import LnBounds.

Lemma ln_le (x y : R) : (0 < x)%R -> (x <= y)%R -> (ln x <= ln y)%R.
Proof.
  intros Hx [Hlt| ->]; [|lra]. left. now apply ln_increasing.
Qed.

Lemma ln_le_minus_1 (r : R) : (0 < r)%R -> (ln r <= r - 1)%R.
Proof.
  intros Hr. pose proof (exp_ineq1_le (ln r)) as H.
  rewrite exp_ln in H by assumption. lra.
Qed.

Section FixedPoint.

Variable s : Z.
Hypothesis s_pos : 0 < s.

Lemma s_pos_R : (0 < IZR s)%R.
Proof. now apply IZR_lt. Qed.

Lemma div_le_square (d d' : Z) :
  0 < d -> 0 < d' -> d * s <= d' * d' ->
  (IZR d / IZR s <= (IZR d' / IZR s) * (IZR d' / IZR s))%R.
Proof.
  intros Hd Hd' Hsq. pose proof s_pos_R as HS.
  apply IZR_le in Hsq. rewrite !mult_IZR in Hsq.
  replace (IZR d / IZR s)%R with (IZR d * IZR s * (/ IZR s * / IZR s))%R
    by (field; lra).
  replace (IZR d' / IZR s * (IZR d' / IZR s))%R
    with (IZR d' * IZR d' * (/ IZR s * / IZR s))%R by (field; lra).
  apply Rmult_le_compat_r; [|assumption].
  apply Rlt_le, Rmult_lt_0_compat; now apply Rinv_0_lt_compat.
Qed.

Lemma root_up_sound (n : nat) (d : Z) :
  0 < d ->
  0 < root_up s n d
  /\ (ln (IZR d / IZR s) <= 2 ^ n * ln (IZR (root_up s n d) / IZR s))%R.
Proof.
  revert d. induction n as [|n IH]; intros d Hd.
  - cbn [root_up pow]. split; [assumption | lra].
  - cbn [root_up].
    assert (0 < d * s) as Hds by lia.
    pose proof (Z.sqrt_up_spec (d * s) Hds) as [_ Hsq].
    pose proof (proj2 (Z.sqrt_up_pos (d * s)) Hds) as Hpos.
    destruct (IH (Z.sqrt_up (d * s)) Hpos) as [Hr IHln]. split; [assumption|].
    pose proof s_pos_R as HS.
    assert (0 < IZR d / IZR s)%R as Hq0
      by (apply Rdiv_lt_0_compat; [now apply IZR_lt | assumption]).
    assert (0 < IZR (Z.sqrt_up (d * s)) / IZR s)%R as Hq
      by (apply Rdiv_lt_0_compat; [now apply IZR_lt | assumption]).
    pose proof (div_le_square d _ Hd Hpos Hsq) as Hle.
    apply ln_le in Hle; [|assumption].
    rewrite ln_mult in Hle by assumption.
    change (2 ^ S n)%R with (2 * 2 ^ n)%R. lra.
Qed.

(** The upper enclosure. *)
Lemma ln_upper_sound (n : nat) (num den : Z) :
  0 < num -> 0 < den ->
  (ln (IZR num / IZR den) <= IZR (ln_upper s n num den) / IZR s)%R.
Proof.
  intros Hnum Hden. unfold ln_upper.
  set (d := (num * s + den - 1) / den).
  assert (num * s <= d * den /\ 0 < d) as [Hd Hdpos].
  { unfold d. pose proof (Z.div_mod (num * s + den - 1) den ltac:(lia)) as Hdm.
    pose proof (Z.mod_pos_bound (num * s + den - 1) den Hden) as Hmod.
    assert (0 < num * s) by lia. nia. }
  destruct (root_up_sound n d Hdpos) as [Hr Hln].
  set (r := root_up s n d) in *.
  pose proof s_pos_R as HS.
  assert (0 < IZR num)%R as HnR by now apply IZR_lt.
  assert (0 < IZR den)%R as HdR by now apply IZR_lt.
  assert (0 < IZR d)%R as HdR' by now apply IZR_lt.
  assert (0 < IZR r)%R as HrR by now apply IZR_lt.
  apply IZR_le in Hd. rewrite !mult_IZR in Hd.
  assert (IZR num / IZR den <= IZR d / IZR s)%R as Hle.
  { replace (IZR num / IZR den)%R with (IZR num * IZR s * (/ IZR den * / IZR s))%R
      by (field; lra).
    replace (IZR d / IZR s)%R with (IZR d * IZR den * (/ IZR den * / IZR s))%R
      by (field; lra).
    apply Rmult_le_compat_r; [|assumption].
    apply Rlt_le, Rmult_lt_0_compat; now apply Rinv_0_lt_compat. }
  apply ln_le in Hle; [|now apply Rdiv_lt_0_compat].
  pose proof (ln_le_minus_1 (IZR r / IZR s) ltac:(now apply Rdiv_lt_0_compat)) as Hr1.
  assert (0 < 2 ^ n)%R as Hpow by (apply pow_lt; lra).
  rewrite mult_IZR, minus_IZR, <- pow_IZR.
  replace (2 ^ n * (IZR r - IZR s) / IZR s)%R
    with (2 ^ n * (IZR r / IZR s - 1))%R by (field; lra).
  apply Rle_trans with (2 ^ n * ln (IZR r / IZR s))%R; [lra|].
  apply Rmult_le_compat_l; lra.
Qed.

(** The lower enclosure, through [ln (1 / x) = - ln x]. *)
Lemma ln_lower_sound (n : nat) (num den : Z) :
  0 < num -> 0 < den ->
  (- IZR (ln_upper s n den num) / IZR s <= ln (IZR num / IZR den))%R.
Proof.
  intros Hnum Hden.
  pose proof (ln_upper_sound n den num Hden Hnum) as H.
  assert (0 < IZR num)%R as HnR by now apply IZR_lt.
  assert (0 < IZR den)%R as HdR by now apply IZR_lt.
  replace (IZR den / IZR num)%R with (/ (IZR num / IZR den))%R in H by (field; lra).
  rewrite ln_Rinv in H by now apply Rdiv_lt_0_compat.
  lra.
Qed.

End FixedPoint.

End LnBoundsFacts.

(** ** The logarithms the reference values depend on *)

Module LnValues.
Import LnBounds LnBoundsFacts.

Lemma scale_pos : 0 < scale.
Proof. reflexivity. Qed.

Lemma ratio_le (s u a b : Z) :
  0 < s -> 0 < b -> u * b <= a * s -> (IZR u / IZR s <= IZR a / IZR b)%R.
Proof.
  intros Hs Hb Hle.
  apply IZR_lt in Hs, Hb. apply IZR_le in Hle. rewrite !mult_IZR in Hle.
  replace (IZR u / IZR s)%R with (IZR u * IZR b * (/ IZR s * / IZR b))%R
    by (field; lra).
  replace (IZR a / IZR b)%R with (IZR a * IZR s * (/ IZR s * / IZR b))%R
    by (field; lra).
  apply Rmult_le_compat_r; [|assumption].
  apply Rlt_le, Rmult_lt_0_compat; now apply Rinv_0_lt_compat.
Qed.

(** Certified comparisons: the premise is closed and decided by
    evaluation. *)
Lemma ln_le_ratio (num den a b : Z) :
  0 < num -> 0 < den -> 0 < b ->
  ln_upper scale steps num den * b <= a * scale ->
  (ln (IZR num / IZR den) <= IZR a / IZR b)%R.
Proof.
  intros Hnum Hden Hb Hle.
  eapply Rle_trans.
  - apply (ln_upper_sound scale scale_pos steps num den Hnum Hden).
  - apply ratio_le; [exact scale_pos | assumption | assumption].
Qed.

Lemma ln_ge_ratio (num den a b : Z) :
  0 < num -> 0 < den -> 0 < b ->
  ln_upper scale steps den num * b <= - a * scale ->
  (IZR a / IZR b <= ln (IZR num / IZR den))%R.
Proof.
  intros Hnum Hden Hb Hle.
  pose proof (ln_le_ratio den num (- a) b Hden Hnum Hb Hle) as H.
  assert (0 < IZR num)%R as HnR by now apply IZR_lt.
  assert (0 < IZR den)%R as HdR by now apply IZR_lt.
  replace (IZR den / IZR num)%R with (/ (IZR num / IZR den))%R in H by (field; lra).
  rewrite ln_Rinv in H by now apply Rdiv_lt_0_compat.
  rewrite opp_IZR in H. apply IZR_lt in Hb.
  replace (- IZR a / IZR b)%R with (- (IZR a / IZR b))%R in H by (field; lra).
  lra.
Qed.

Lemma ln_2_enclosure : (69314718 / 100000000 <= ln 2 <= 69314719 / 100000000)%R.
Proof.
  replace 2%R with (2 / 1)%R at 1 2 by lra. split.
  - apply (ln_ge_ratio 2 1 69314718 100000000); decide_Z.
  - apply (ln_le_ratio 2 1 69314719 100000000); decide_Z.
Qed.

Lemma ln_hundredth_enclosure :
  (- 460517019 / 100000000 <= ln (1 / 100) <= - 460517018 / 100000000)%R.
Proof.
  split.
  - apply (ln_ge_ratio 1 100 (- 460517019) 100000000); decide_Z.
  - apply (ln_le_ratio 1 100 (- 460517018) 100000000); decide_Z.
Qed.

Lemma ln_thousandth_enclosure :
  (- 690775528 / 100000000 <= ln (1 / 1000) <= - 690775527 / 100000000)%R.
Proof.
  split.
  - apply (ln_ge_ratio 1 1000 (- 690775528) 100000000); decide_Z.
  - apply (ln_le_ratio 1 1000 (- 690775527) 100000000); decide_Z.
Qed.

Lemma ln_nine_tenths_enclosure :
  (- 10536052 / 100000000 <= ln (9 / 10) <= - 10536051 / 100000000)%R.
Proof.
  split.
  - apply (ln_ge_ratio 9 10 (- 10536052) 100000000); decide_Z.
  - apply (ln_le_ratio 9 10 (- 10536051) 100000000); decide_Z.
Qed.

End LnValues.

(** ** The constructor *)

Module Construction.
Import JSFacts.

Lemma ln2_pos : (0 < ln 2)%R.
Proof. pose proof ln_lt_2. lra. Qed.

Lemma ln_neg (e : R) : (0 < e < 1)%R -> (ln e < 0)%R.
Proof. intros [H0 H1]. rewrite <- ln_1. now apply ln_increasing. Qed.

Lemma Zceil_div8 (m : Z) : Zceil (IZR m / 8) = (m + 7) / 8.
Proof.
  apply Zceil_eq.
  pose proof (Z.div_mod (m + 7) 8 ltac:(lia)) as Hdm.
  pose proof (Z.mod_pos_bound (m + 7) 8 ltac:(lia)) as Hmod.
  assert (m <= 8 * ((m + 7) / 8)) as Hle by lia.
  assert (8 * ((m + 7) / 8) - 8 + 1 <= m) as Hge by lia.
  apply IZR_le in Hle, Hge.
  rewrite mult_IZR in Hle. rewrite plus_IZR, minus_IZR, mult_IZR in Hge.
  lra.
Qed.

Lemma calculateOptimalParams_eq (capacity errorRate : R) :
  calculateOptimalParams capacity errorRate
  = Normal {| size := IZR (optimal_size capacity errorRate);
              hashCount := IZR (optimal_hashCount capacity errorRate) |}.
Proof. reflexivity. Qed.

Lemma optimal_size_pos (capacity errorRate : R) :
  (0 < capacity)%R -> (0 < errorRate < 1)%R -> 1 <= optimal_size capacity errorRate.
Proof.
  intros Hc He. unfold optimal_size.
  pose proof (ln_neg errorRate He) as Hln. pose proof ln2_pos as H2.
  assert (0 < (- capacity * ln errorRate) / (ln 2 * ln 2))%R as Hpos.
  { apply Rdiv_lt_0_compat; nra. }
  pose proof (Zceil_bound (- capacity * ln errorRate / (ln 2 * ln 2))) as [_ Hb].
  assert (0 < Zceil (- capacity * ln errorRate / (ln 2 * ln 2))); [|lia].
  apply lt_IZR. lra.
Qed.

Lemma optimal_hashCount_nonneg (capacity errorRate : R) :
  (0 < capacity)%R -> (0 < errorRate < 1)%R -> 0 <= optimal_hashCount capacity errorRate.
Proof.
  intros Hc He. unfold optimal_hashCount.
  pose proof (optimal_size_pos capacity errorRate Hc He) as Hm.
  apply IZR_le in Hm. pose proof ln2_pos as H2.
  apply Zfloor_lub.
  assert (0 < IZR (optimal_size capacity errorRate) / capacity)%R.
  { apply Rdiv_lt_0_compat; lra. }
  nra.
Qed.

(** What the constructor returns on inputs it accepts. *)
Lemma BloomSift_new_accepts (capacity errorRate : R) :
  (0 < capacity)%R -> (0 < errorRate < 1)%R ->
  BloomSift_new capacity errorRate
  = Normal {| bits := replicate (Z.to_nat ((optimal_size capacity errorRate + 7) / 8)) 0;
              _size := IZR (optimal_size capacity errorRate);
              _hashCount := IZR (optimal_hashCount capacity errorRate);
              _capacity := capacity;
              _count := 0 |}.
Proof.
  intros Hc He. unfold BloomSift_new.
  pose proof (optimal_size_pos capacity errorRate Hc He) as Hm.
  destruct (decide (capacity <= 0)%R); [lra|].
  rewrite !bool_decide_eq_false_2 by lra. cbn [orb].
  rewrite calculateOptimalParams_eq. cbn [mbind completion_bind size hashCount].
  unfold Uint8Array_new, Math_ceil. rewrite Zceil_div8, ToIntegerOrInfinity_IZR.
  destruct (decide ((optimal_size capacity errorRate + 7) / 8 < 0)) as [Hneg|];
    [|reflexivity].
  pose proof (Z.div_pos (optimal_size capacity errorRate + 7) 8). lia.
Qed.

Lemma BloomSift_new_rejects_capacity (capacity errorRate : R) :
  (capacity <= 0)%R ->
  BloomSift_new capacity errorRate = Throw "capacity must be positive".
Proof.
  intros Hc. unfold BloomSift_new. now destruct (decide (capacity <= 0)%R).
Qed.

Lemma BloomSift_new_rejects_errorRate (capacity errorRate : R) :
  (0 < capacity)%R -> (errorRate <= 0 \/ 1 <= errorRate)%R ->
  BloomSift_new capacity errorRate = Throw "errorRate must be between 0 and 1".
Proof.
  intros Hc He. unfold BloomSift_new.
  destruct (decide (capacity <= 0)%R); [lra|].
  destruct He as [He|He].
  - now rewrite (bool_decide_eq_true_2 _ He).
  - rewrite (bool_decide_eq_true_2 (1 <= errorRate)%R He). now rewrite orb_true_r.
Qed.

Lemma replicate_zero_bytes (n : nat) : Forall byte (replicate n 0).
Proof. apply Forall_replicate. unfold byte. lia. Qed.

Lemma BloomSift_new_wf (capacity errorRate : R) (f : BloomSift) :
  BloomSift_new capacity errorRate = Normal f -> wf f.
Proof.
  intros Hnew.
  destruct (Rle_dec capacity 0) as [Hc|Hc].
  { rewrite BloomSift_new_rejects_capacity in Hnew by assumption. discriminate. }
  destruct (Rle_dec errorRate 0) as [He0|He0].
  { rewrite BloomSift_new_rejects_errorRate in Hnew by lra. discriminate. }
  destruct (Rle_dec 1 errorRate) as [He1|He1].
  { rewrite BloomSift_new_rejects_errorRate in Hnew by lra. discriminate. }
  assert (0 < capacity)%R as Hcap by lra.
  assert (0 < errorRate < 1)%R as He by lra.
  rewrite BloomSift_new_accepts in Hnew by assumption.
  injection Hnew as <-.
  pose proof (optimal_size_pos capacity errorRate Hcap He) as Hm.
  exists (optimal_size capacity errorRate), (optimal_hashCount capacity errorRate), 0.
  simpl. repeat split; try reflexivity; try lia; try lra.
  - now apply optimal_hashCount_nonneg.
  - rewrite length_replicate.
    pose proof (Z.div_pos (optimal_size capacity errorRate + 7) 8). lia.
  - apply replicate_zero_bytes.
Qed.

End Construction.

(** * The constructor on numbers that may be NaN *)

Module NaNFacts.
Import JSFacts Construction.







End NaNFacts.

(** ** Values of [calculateOptimalParams] *)

Module Reference.
Import JSFacts Construction LnValues.

Lemma Zceil_quotient (a b : R) (z : Z) :
  (0 < b)%R -> ((IZR z - 1) * b < a <= IZR z * b)%R -> Zceil (a / b) = z.
Proof.
  intros Hb [Hlo Hhi]. apply Zceil_eq. split.
  - apply Rmult_lt_reg_r with b; [assumption|].
    replace (a / b * b)%R with a by (field; lra). assumption.
  - apply Rmult_le_reg_r with b; [assumption|].
    replace (a / b * b)%R with a by (field; lra). assumption.
Qed.

Lemma ln2_square_enclosure :
  (48045301 / 100000000 <= ln 2 * ln 2 <= 48045303 / 100000000)%R.
Proof. pose proof ln_2_enclosure. nra. Qed.

Lemma optimal_size_1000_hundredth : optimal_size 1000 (1 / 100) = 9586.
Proof.
  unfold optimal_size.
  pose proof ln2_square_enclosure. pose proof ln_hundredth_enclosure.
  apply Zceil_quotient; [lra|]. split; nra.
Qed.

Lemma optimal_hashCount_1000_hundredth : optimal_hashCount 1000 (1 / 100) = 7.
Proof.
  unfold optimal_hashCount. rewrite optimal_size_1000_hundredth.
  pose proof ln_2_enclosure. apply Zfloor_eq. lra.
Qed.

Lemma optimal_size_100_thousandth : optimal_size 100 (1 / 1000) = 1438.
Proof.
  unfold optimal_size.
  pose proof ln2_square_enclosure. pose proof ln_thousandth_enclosure.
  apply Zceil_quotient; [lra|]. split; nra.
Qed.

Lemma optimal_hashCount_100_thousandth : optimal_hashCount 100 (1 / 1000) = 10.
Proof.
  unfold optimal_hashCount. rewrite optimal_size_100_thousandth.
  pose proof ln_2_enclosure. apply Zfloor_eq. lra.
Qed.

Lemma optimal_size_1000_nine_tenths : optimal_size 1000 (9 / 10) = 220.
Proof.
  unfold optimal_size.
  pose proof ln2_square_enclosure. pose proof ln_nine_tenths_enclosure.
  apply Zceil_quotient; [lra|]. split; nra.
Qed.

Lemma optimal_hashCount_1000_nine_tenths : optimal_hashCount 1000 (9 / 10) = 0.
Proof.
  unfold optimal_hashCount. rewrite optimal_size_1000_nine_tenths.
  pose proof ln_2_enclosure. apply Zfloor_eq. lra.
Qed.



End Reference.

(** ** [serialize] and [deserialize] *)

Module Codec.
Import JSFacts Construction Base64Facts.

Lemma placeholder_instance : exists f, BloomSift_new 1 (/ 2) = Normal f.
Proof. eexists. apply BloomSift_new_accepts; lra. Qed.

Lemma Number_toString_IZR (z : Z) :
  Number_toString (IZR z) = NilZero.string_of_int (Z.to_int z).
Proof. unfold Number_toString. now rewrite ZfloorZ. Qed.

(** The outcome of [deserialize] once the four field checks pass. *)
Lemma deserialize_checked (d : SerializedBloomSift) (bits64 : string) (m k c : Z) :
  data_bits d = Some bits64 ->
  data_size d = Some (IZR m) -> 0 < m ->
  data_hashCount d = Some (IZR k) -> 0 < k ->
  data_count d = Some (IZR c) -> 0 <= c ->
  deserialize (Some d)
  = match decoded_bytes bits64 with
    | None => Throw "InvalidCharacterError"
    | Some bytes =>
        if decide (Z.of_nat (length bytes) = (m + 7) / 8)
        then Normal (restored bytes m k c)
        else Throw (length_message ((m + 7) / 8) (Z.of_nat (length bytes)))
    end.
Proof.
  intros Hbits Hsize Hm Hhash Hk Hcount Hc. unfold deserialize. rewrite Hbits.
  rewrite (proj2 (nonpositive_or_not_integer_false (data_size d)))
    by (exists m; auto).
  rewrite (proj2 (nonpositive_or_not_integer_false (data_hashCount d)))
    by (exists k; auto).
  rewrite (proj2 (negative_or_not_integer_false (data_count d)))
    by (exists c; auto).
  unfold decoded_bytes. destruct (Base64.atob bits64) as [s|]; [|reflexivity].
  simpl. rewrite Hsize, Hhash, Hcount. simpl.
  unfold Math_ceil. rewrite Zceil_div8.
  set (bytes := map charCodeAt0 (list_ascii_of_string s)).
  destruct (decide (Z.of_nat (length bytes) = (m + 7) / 8)) as [Heq|Hne].
  - destruct (decide (IZR (Z.of_nat (length bytes)) <> IZR ((m + 7) / 8))) as [Hne|_].
    { rewrite Heq in Hne. congruence. }
    destruct placeholder_instance as [f0 ->]. reflexivity.
  - destruct (decide (IZR (Z.of_nat (length bytes)) <> IZR ((m + 7) / 8))) as [_|Heq].
    + unfold length_message. now rewrite !Number_toString_IZR.
    + exfalso. apply Hne, eq_IZR.
      destruct (Req_dec_T (IZR (Z.of_nat (length bytes))) (IZR ((m + 7) / 8)));
        [assumption | contradiction].
Qed.

(** Every accepted record has passed the four field checks. *)
Lemma deserialize_Normal_inv (data : option SerializedBloomSift) (f : BloomSift) :
  deserialize data = Normal f ->
  exists d bits64 m k c,
    data = Some d /\ data_bits d = Some bits64
    /\ data_size d = Some (IZR m) /\ 0 < m
    /\ data_hashCount d = Some (IZR k) /\ 0 < k
    /\ data_count d = Some (IZR c) /\ 0 <= c.
Proof.
  unfold deserialize. destruct data as [d|]; [|discriminate].
  destruct (data_bits d) as [bits64|] eqn:Hb; [|discriminate].
  destruct (nonpositive_or_not_integer (data_size d)) eqn:Hs; [discriminate|].
  destruct (nonpositive_or_not_integer (data_hashCount d)) eqn:Hh; [discriminate|].
  destruct (negative_or_not_integer (data_count d)) eqn:Hc; [discriminate|].
  apply nonpositive_or_not_integer_false in Hs, Hh.
  apply negative_or_not_integer_false in Hc.
  destruct Hs as (m & Hm & Hs), Hh as (k & Hk & Hh), Hc as (c & Hc0 & Hc).
  intros _. exists d, bits64, m, k, c. repeat split; assumption || reflexivity.
Qed.

Lemma deserialize_Normal (data : option SerializedBloomSift) (f : BloomSift) :
  deserialize data = Normal f ->
  exists d bits64 bytes m k c,
    data = Some d /\ data_bits d = Some bits64
    /\ data_size d = Some (IZR m) /\ 0 < m
    /\ data_hashCount d = Some (IZR k) /\ 0 < k
    /\ data_count d = Some (IZR c) /\ 0 <= c
    /\ decoded_bytes bits64 = Some bytes
    /\ Z.of_nat (length bytes) = (m + 7) / 8
    /\ f = restored bytes m k c.
Proof.
  intros H.
  destruct (deserialize_Normal_inv data f H)
    as (d & bits64 & m & k & c & -> & Hb & Hs & Hm & Hh & Hk & Hc & Hc0).
  rewrite (deserialize_checked d bits64 m k c) in H by assumption.
  destruct (decoded_bytes bits64) as [bytes|] eqn:Hdec; [|discriminate].
  destruct (decide (Z.of_nat (length bytes) = (m + 7) / 8)); [|discriminate].
  injection H as <-.
  exists d, bits64, bytes, m, k, c. repeat split; assumption || reflexivity.
Qed.

Lemma decoded_bytes_byte (bits64 : string) (bytes : list Z) :
  decoded_bytes bits64 = Some bytes -> Forall byte bytes.
Proof.
  unfold decoded_bytes. destruct (Base64.atob bits64); [|discriminate].
  simpl. intros [= <-]. apply bytes_of_chars_byte.
Qed.

Lemma restored_capacity_pos (bytes : list Z) (m k c : Z) :
  0 <= c -> (0 < _capacity (restored bytes m k c))%R.
Proof.
  intros Hc. simpl. destruct (decide (IZR c = 0%R)) as [|Hne]; [lra|].
  assert (c <> 0) by (intros ->; now apply Hne).
  assert (0 < c) as Hpos by lia. apply IZR_lt in Hpos. lra.
Qed.

Lemma deserialize_wf (data : option SerializedBloomSift) (f : BloomSift) :
  deserialize data = Normal f -> wf f.
Proof.
  intros H. apply deserialize_Normal in H.
  destruct H as (d & bits64 & bytes & m & k & c & _ & _ & _ & Hm & _ & Hk
                 & _ & Hc & Hdec & Hlen & ->).
  exists m, k, c. simpl. repeat split; try reflexivity; try lia.
  - now apply decoded_bytes_byte in Hdec.
  - now apply (restored_capacity_pos bytes m k c).
Qed.

Lemma serialize_eq (f : BloomSift) :
  serialize f
  = Normal {| data_bits := Some (Base64.btoa (string_of_list_ascii
                                   (map String_fromCharCode (bits f))));
              data_size := Some (_size f);
              data_hashCount := Some (_hashCount f);
              data_count := Some (_count f);
              data_capacity := None |}.
Proof. reflexivity. Qed.

Lemma decoded_bytes_btoa (bytes : list Z) :
  Forall byte bytes ->
  decoded_bytes (Base64.btoa (string_of_list_ascii (map String_fromCharCode bytes)))
  = Some bytes.
Proof.
  intros Hb. unfold decoded_bytes. rewrite atob_btoa. simpl.
  now rewrite list_ascii_of_string_of_list_ascii, chars_of_bytes_bytes.
Qed.

End Codec.

(** ** The filter engine on well-formed filters *)

Module Engine.
Import JSFacts BitArray Loops Construction Codec.

Section WithHash.

Variable hash128x64 : item -> Z.
Hypothesis hash_ok : hash_contract hash128x64.

Lemma wf_size (f : BloomSift) :
  wf f ->
  exists m, 1 <= m /\ _size f = IZR m /\ Zfloor (_size f) = m
            /\ BigInt (_size f) = Normal m /\ holds_bits m (bits f).
Proof.
  intros (m & k & c & Hm & _ & _ & Hs & _ & _ & Hlen & Hbytes & _).
  exists m. rewrite Hs, ZfloorZ, BigInt_IZR. repeat split; try assumption.
  rewrite Hlen. pose proof (Z.div_mod (m + 7) 8 ltac:(lia)).
  pose proof (Z.mod_pos_bound (m + 7) 8 ltac:(lia)). lia.
Qed.

Lemma add_eq (f : BloomSift) (x : item) :
  wf f -> add hash128x64 f x = Normal (added hash128x64 f x).
Proof.
  intros Hwf. destruct (wf_size f Hwf) as (m & Hm & _ & Hfl & Hbig & _).
  unfold add, added, probes. rewrite Hfl.
  destruct (hash128 hash128x64 x) as [h1 h2]. simpl fst. simpl snd.
  rewrite Hbig. cbn [mbind completion_bind].
  rewrite add_loop_indices by lia. reflexivity.
Qed.

Lemma has_eq (f : BloomSift) (x : item) :
  wf f ->
  has hash128x64 f x = Normal (forallb (getBit (bits f)) (probes hash128x64 f x)).
Proof.
  intros Hwf. destruct (wf_size f Hwf) as (m & Hm & _ & Hfl & Hbig & _).
  unfold has, probes. rewrite Hfl.
  destruct (hash128 hash128x64 x) as [h1 h2]. simpl fst. simpl snd.
  rewrite Hbig. cbn [mbind completion_bind].
  now rewrite has_loop_indices by lia.
Qed.

(** Every probe is a bit number below [size], itself at most eight times
    the number of bytes. *)
Lemma probes_in_range (f : BloomSift) (x : item) :
  wf f ->
  Forall (fun j => 0 <= j < Zfloor (_size f)) (probes hash128x64 f x)
  /\ Zfloor (_size f) <= 8 * Z.of_nat (length (bits f)).
Proof.
  intros Hwf. destruct (wf_size f Hwf) as (m & Hm & _ & Hfl & _ & Hlen & _).
  rewrite Hfl. split; [|assumption].
  destruct (hash128_nonneg hash128x64 x hash_ok) as [H1 H2].
  unfold probes. rewrite Hfl.
  apply indices_in_range; [assumption | assumption | lia | apply for_range_nonneg].
Qed.

Lemma added_wf (f : BloomSift) (x : item) : wf f -> wf (added hash128x64 f x).
Proof.
  intros (m & k & c & Hm & Hk & Hc & Hs & Hh & Hcnt & Hlen & Hbytes & Hcap).
  exists m, k, (c + 1). simpl. repeat split; try assumption; try lia.
  - rewrite Hcnt, plus_IZR. reflexivity.
  - now rewrite fold_setBit_length.
  - now apply fold_setBit_bytes.
Qed.

Lemma cleared_wf (f f' : BloomSift) : wf f -> clear f = Normal f' -> wf f'.
Proof.
  intros (m & k & c & Hm & Hk & Hc & Hs & Hh & Hcnt & Hlen & Hbytes & Hcap) [= <-].
  exists m, k, 0. simpl. repeat split; try assumption; try lia.
  - unfold Uint8Array_fill0. now rewrite length_map.
  - unfold Uint8Array_fill0. apply List.Forall_map, List.Forall_forall.
    intros b _. unfold byte. lia.
Qed.

(** Every filter a program can hold is well formed. *)
Lemma constructed_wf (f : BloomSift) : constructed hash128x64 f -> wf f.
Proof.
  induction 1 as [capacity errorRate f Hnew | data f Hde
                  | f x f' _ IH Hadd | f f' _ IH Hclear].
  - eapply BloomSift_new_wf; eauto.
  - eapply deserialize_wf; eauto.
  - rewrite add_eq in Hadd by assumption. injection Hadd as <-.
    now apply added_wf.
  - eapply cleared_wf; eauto.
Qed.

(** [add] then [has] on the same item: every probed bit has been set. *)
Lemma has_added (f : BloomSift) (x : item) :
  wf f -> has hash128x64 (added hash128x64 f x) x = Normal true.
Proof.
  intros Hwf. rewrite has_eq by now apply added_wf.
  f_equal. apply forallb_forall. intros j Hj.
  change (probes hash128x64 (added hash128x64 f x) x)
    with (probes hash128x64 f x) in Hj.
  destruct (probes_in_range f x Hwf) as [Hrange Hlen].
  rewrite List.Forall_forall in Hrange. specialize (Hrange j Hj).
  destruct Hwf as (m & k & c & _ & _ & _ & _ & _ & _ & _ & Hbytes & _).
  simpl. apply getBit_fold_set; [assumption | assumption | lia].
Qed.

(** A later [add] keeps every earlier positive answer. *)
Lemma has_added_mono (f : BloomSift) (x y : item) :
  wf f -> has hash128x64 f x = Normal true ->
  has hash128x64 (added hash128x64 f y) x = Normal true.
Proof.
  intros Hwf Hhas. rewrite has_eq in Hhas by assumption.
  rewrite has_eq by now apply added_wf.
  injection Hhas as Hhas. f_equal.
  rewrite forallb_forall in Hhas. apply forallb_forall. intros j Hj.
  change (probes hash128x64 (added hash128x64 f y) x)
    with (probes hash128x64 f x) in Hj.
  destruct Hwf as (m & k & c & _ & _ & _ & _ & _ & _ & _ & Hbytes & _).
  simpl. apply getBit_fold_mono; [assumption | now apply Hhas].
Qed.

Lemma added_bits_mono (f : BloomSift) (y : item) (j : Z) :
  wf f -> getBit (bits f) j = true ->
  getBit (bits (added hash128x64 f y)) j = true.
Proof.
  intros (m & k & c & _ & _ & _ & _ & _ & _ & _ & Hbytes & _) Hj.
  simpl. now apply getBit_fold_mono.
Qed.

(** A run of [add] calls completes, keeps the parameters and only sets
    bits. *)
Lemma add_all_total (xs : list item) (f : BloomSift) :
  wf f ->
  exists f', add_all hash128x64 f xs = Normal f' /\ wf f'
             /\ _size f' = _size f /\ _hashCount f' = _hashCount f
             /\ forall j, getBit (bits f) j = true -> getBit (bits f') j = true.
Proof.
  revert f. induction xs as [|y xs IH]; intros f Hwf.
  - exists f. simpl. auto.
  - simpl. rewrite add_eq by assumption. cbn [mbind completion_bind].
    destruct (IH (added hash128x64 f y) (added_wf f y Hwf))
      as (f' & -> & Hwf' & Hs & Hh & Hmono).
    exists f'. repeat split; try assumption.
    intros j Hj. apply Hmono. now apply added_bits_mono.
Qed.

(** A positive answer survives whatever only sets bits. *)
Lemma has_mono (f f' : BloomSift) (x : item) :
  wf f -> wf f' -> _size f' = _size f -> _hashCount f' = _hashCount f ->
  (forall j, getBit (bits f) j = true -> getBit (bits f') j = true) ->
  has hash128x64 f x = Normal true -> has hash128x64 f' x = Normal true.
Proof.
  intros Hwf Hwf' Hs Hh Hmono Hhas.
  rewrite has_eq in Hhas by assumption. rewrite has_eq by assumption.
  injection Hhas as Hhas. f_equal.
  rewrite forallb_forall in Hhas. apply forallb_forall. intros j Hj.
  unfold probes in Hj. rewrite Hs, Hh in Hj. apply Hmono, Hhas. exact Hj.
Qed.

(** [has] reads nothing but the bits and the two parameters. *)
Lemma has_ext (f f' : BloomSift) (x : item) :
  bits f' = bits f -> _size f' = _size f -> _hashCount f' = _hashCount f ->
  has hash128x64 f' x = has hash128x64 f x.
Proof. intros Hb Hs Hh. unfold has. now rewrite Hb, Hs, Hh. Qed.

End WithHash.

(** The round trip of a well-formed filter whose hash count is positive. *)
Lemma roundtrip_positive_hashCount (f : BloomSift) :
  wf f -> (1 <= _hashCount f)%R ->
  exists f', (d ← serialize f; deserialize (Some d)) = Normal f'
             /\ bits f' = bits f /\ _size f' = _size f
             /\ _hashCount f' = _hashCount f /\ _count f' = _count f.
Proof.
  intros (m & k & c & Hm & Hk & Hc & Hs & Hh & Hcnt & Hlen & Hbytes & Hcap) Hpos.
  assert (0 < m) as Hm' by lia.
  rewrite serialize_eq. cbn [mbind completion_bind].
  assert (0 < k) as Hk1.
  { rewrite Hh in Hpos. apply le_IZR in Hpos. lia. }
  rewrite Hs, Hh, Hcnt.
  match goal with
  | |- context [deserialize (Some ?d)] =>
      rewrite (deserialize_checked d _ m k c eq_refl eq_refl Hm' eq_refl Hk1 eq_refl Hc)
  end.
  rewrite decoded_bytes_btoa by assumption.
  destruct (decide (Z.of_nat (length (bits f)) = (m + 7) / 8)); [|contradiction].
  eexists. split; [reflexivity|]. simpl. auto.
Qed.

End Engine.

(** ** The sample inputs *)

Module Samples.
Import JSFacts Construction Codec Engine.

Lemma sample_hash_contract : hash_contract sample_hash.
Proof.
  intros [s|b]; unfold sample_hash; apply Z.mod_pos_bound; reflexivity.
Qed.

Lemma decoded_AA : decoded_bytes "AA==" = Some [0].
Proof. vm_compute. reflexivity. Qed.

Lemma decoded_AQ : decoded_bytes "AQ==" = Some [1].
Proof. vm_compute. reflexivity. Qed.

Lemma sample_record_restored :
  deserialize (Some sample_record) = Normal (restored [0] 8 7 0).
Proof.
  rewrite (deserialize_checked sample_record "AA==" 8 7 0)
    by (reflexivity || lia).
  rewrite decoded_AA. reflexivity.
Qed.

Lemma zero_capacity_record_restored :
  deserialize (Some zero_capacity_record) = Normal (restored [0] 8 7 0).
Proof.
  rewrite (deserialize_checked zero_capacity_record "AA==" 8 7 0)
    by (reflexivity || lia).
  rewrite decoded_AA. reflexivity.
Qed.

Lemma counted_record_restored :
  deserialize (Some counted_record) = Normal (restored [1] 8 7 5).
Proof.
  rewrite (deserialize_checked counted_record "AQ==" 8 7 5)
    by (reflexivity || lia).
  rewrite decoded_AQ. reflexivity.
Qed.

Lemma sample_constructed (hash128x64 : item -> Z) :
  constructed hash128x64 (restored [0] 8 7 0).
Proof.
  apply (constructed_deserialize _ (Some sample_record)), sample_record_restored.
Qed.

Lemma decoded_full : decoded_bytes "/w==" = Some [255].
Proof. vm_compute. reflexivity. Qed.

Lemma full_record_restored :
  deserialize (Some full_record) = Normal full_filter.
Proof.
  rewrite (deserialize_checked full_record "/w==" 8 7 3)
    by (reflexivity || lia).
  rewrite decoded_full. reflexivity.
Qed.

Lemma full_constructed (hash128x64 : item -> Z) :
  constructed hash128x64 full_filter.
Proof.
  apply (constructed_deserialize _ (Some full_record)), full_record_restored.
Qed.

End Samples.

(** ** The operations on concrete inputs *)

Module Examples.
Import JSFacts Construction Codec Engine Samples.

Example setBit_second_byte : setBit [0; 0] 9 = [0; 2].
Proof. vm_compute. reflexivity. Qed.

Example setBit_keeps_bits : setBit [5; 128] 15 = [5; 128] /\ setBit [5; 128] 1 = [7; 128].
Proof. vm_compute. split; reflexivity. Qed.

Example setBit_out_of_range : setBit [0] 8 = [0] /\ getBit [255] 8 = false.
Proof. vm_compute. split; reflexivity. Qed.

Example getBit_reads : getBit [0; 2] 9 = true /\ getBit [0; 2] 8 = false.
Proof. vm_compute. split; reflexivity. Qed.

Example btoa_zero_byte :
  Base64.btoa (String (ascii_of_nat 0) EmptyString) = "AA=="%string.
Proof. vm_compute. reflexivity. Qed.

Example atob_rejects : Base64.atob "A" = None /\ Base64.atob "AA=A" = None.
Proof. vm_compute. split; reflexivity. Qed.

(** The empty filter answers [false]: [has] is not constantly [true]. *)
Example has_on_empty_filter :
  has sample_hash (restored [0] 8 7 0) (ItemString "") = Normal false.
Proof.
  rewrite has_eq
    by apply (constructed_wf sample_hash _ (sample_constructed sample_hash)).
  unfold probes. cbn [_hashCount _size restored bits].
  rewrite for_range_IZR, ZfloorZ. vm_compute. reflexivity.
Qed.

(** The bits one [add] sets in it. *)
Example add_on_empty_filter :
  exists f, add sample_hash (restored [0] 8 7 0) (ItemString "") = Normal f
            /\ bits f = [247] /\ _count f = 1%R.
Proof.
  eexists. split.
  - apply add_eq, (constructed_wf sample_hash _ (sample_constructed sample_hash)).
  - unfold added, probes. cbn [_hashCount _size _count restored bits].
    rewrite for_range_IZR, ZfloorZ. split; [vm_compute; reflexivity | lra].
Qed.

End Examples.

(** * The claims *)

Import JSFacts BitArray Loops Construction Codec Engine Reference Samples.

(** C1 -- No false negatives.  For every filter a program can hold
    (built by the constructor or by [deserialize], then mutated by [add]
    and [clear]) and every item [x], [add] completes and [has] answers
    [true] for [x] right after it; after any further run [ys] of [add]
    calls, which completes as well, [has] still answers [true] for [x],
    and every bit that was set in the filter is still set. *)
Theorem C1_no_false_negatives
  (hash128x64 : item -> Z) (f : BloomSift) (x : item) (ys : list item) :
  hash_contract hash128x64 -> constructed hash128x64 f ->
  exists f1 f2,
    add hash128x64 f x = Normal f1
    /\ has hash128x64 f1 x = Normal true
    /\ add_all hash128x64 f1 ys = Normal f2
    /\ has hash128x64 f2 x = Normal true
    /\ (forall j, getBit (bits f) j = true -> getBit (bits f2) j = true).
Proof.
  intros Hhash Hf. pose proof (constructed_wf hash128x64 f Hf) as Hwf.
  pose proof (added_wf hash128x64 f x Hwf) as Hwf1.
  destruct (add_all_total hash128x64 ys (added hash128x64 f x) Hwf1)
    as (f2 & Hall & Hwf2 & Hs & Hh & Hmono).
  exists (added hash128x64 f x), f2.
  split; [now apply add_eq|].
  split; [now apply has_added|].
  split; [assumption|].
  split.
  - apply (has_mono hash128x64 (added hash128x64 f x) f2 x); try assumption.
    now apply has_added.
  - intros j Hj. apply Hmono. now apply added_bits_mono.
Qed.

Lemma C1_witness :
  exists f1 f2,
    add sample_hash (restored [0] 8 7 0) (ItemString "") = Normal f1
    /\ has sample_hash f1 (ItemString "") = Normal true
    /\ add_all sample_hash f1 [ItemBytes []; ItemString "a"] = Normal f2
    /\ has sample_hash f2 (ItemString "") = Normal true
    /\ (forall j, getBit (bits (restored [0] 8 7 0)) j = true
                  -> getBit (bits f2) j = true).
Proof.
  apply (C1_no_false_negatives sample_hash (restored [0] 8 7 0)
           (ItemString "") [ItemBytes []; ItemString "a"]).
  - exact sample_hash_contract.
  - exact (sample_constructed sample_hash).
Defined.



(** On a filter whose hash count is positive the round trip succeeds and
    preserves the parameters, the counter, the bits and every answer of
    [has]. *)
Lemma roundtrip_preserves_has (hash128x64 : item -> Z) (f : BloomSift) :
  constructed hash128x64 f -> (1 <= _hashCount f)%R ->
  exists f', (d ← serialize f; deserialize (Some d)) = Normal f'
             /\ _size f' = _size f /\ _hashCount f' = _hashCount f
             /\ _count f' = _count f
             /\ forall x, has hash128x64 f' x = has hash128x64 f x.
Proof.
  intros Hf Hk. pose proof (constructed_wf hash128x64 f Hf) as Hwf.
  destruct (roundtrip_positive_hashCount f Hwf Hk) as (f' & Hrt & Hb & Hs & Hh & Hc).
  exists f'. repeat split; try assumption.
  intros x. now apply has_ext.
Qed.

Lemma not_positive_integer_zero : ~ positive_integer (Some 0%R).
Proof. intros (z & Hz & [= H]). apply eq_IZR in H. lia. Qed.

(** C2 -- Round trip, at the filter [new BloomSift({capacity: 1000,
    errorRate: 0.9})]: the constructor accepts the input and derives
    [hashCount = 0]; [serialize] writes that 0, and [deserialize] rejects
    its own record with "hashCount must be a positive integer". *)
Theorem C2_roundtrip_rejects_constructed_filter :
  exists f,
    BloomSift_new 1000 (9 / 10) = Normal f
    /\ _size f = 220%R /\ _hashCount f = 0%R
    /\ (d ← serialize f; deserialize (Some d))
       = Throw "Invalid serialized data: hashCount must be a positive integer".
Proof.
  eexists. split; [apply BloomSift_new_accepts; lra|].
  rewrite optimal_size_1000_nine_tenths, optimal_hashCount_1000_nine_tenths.
  cbn [_size _hashCount]. split; [reflexivity|]. split; [reflexivity|].
  rewrite serialize_eq. cbn [mbind completion_bind].
  unfold deserialize.
  cbn [data_bits data_size data_hashCount data_count _size _hashCount _count].
  rewrite (proj2 (nonpositive_or_not_integer_false (Some 220%R)))
    by (exists 220; split; [lia | reflexivity]).
  rewrite (proj2 (nonpositive_or_not_integer_true (Some 0%R)))
    by exact not_positive_integer_zero.
  reflexivity.
Qed.

(** [calculateOptimalParams] never throws. *)
Lemma calculateOptimalParams_completes (capacity errorRate : R) :
  completes (calculateOptimalParams capacity errorRate).
Proof. eexists. apply calculateOptimalParams_eq. Qed.

(** C3, as stated, fails: on the invalid capacity -1 the function
    [calculateOptimalParams] returns normally, with [size = -1] and
    [hashCount = 1]. *)
Lemma C3_counterexample :
  (-1 <= 0)%R
  /\ calculateOptimalParams (-1) (1 / 2)
     = Normal {| size := -1; hashCount := 1 |}.
Proof.
  split; [lra|]. rewrite calculateOptimalParams_eq.
  assert (optimal_size (-1) (1 / 2) = -1) as Hsize.
  { unfold optimal_size. pose proof LnValues.ln_2_enclosure as H2.
    assert (ln (1 / 2) = - ln 2)%R as ->.
    { replace (1 / 2)%R with (/ 2)%R by lra. apply ln_Rinv. lra. }
    apply Zceil_quotient; [nra|]. split; nra. }
  assert (optimal_hashCount (-1) (1 / 2) = 1) as Hhash.
  { unfold optimal_hashCount. rewrite Hsize.
    pose proof LnValues.ln_2_enclosure. apply Zfloor_eq. lra. }
  now rewrite Hsize, Hhash.
Qed.

(** C3, amended -- The validation is the constructor's: it throws
    "capacity must be positive" when [capacity <= 0], and otherwise
    "errorRate must be between 0 and 1" when [errorRate] is outside the
    open interval (0, 1); [calculateOptimalParams] itself validates
    nothing and returns normally. *)
Theorem C3_constructor_rejects (capacity errorRate : R) :
  (capacity <= 0 \/ errorRate <= 0 \/ 1 <= errorRate)%R ->
  BloomSift_new capacity errorRate
  = Throw (if decide (capacity <= 0)%R then "capacity must be positive"
           else "errorRate must be between 0 and 1")
  /\ completes (calculateOptimalParams capacity errorRate).
Proof.
  intros H. split; [|apply calculateOptimalParams_completes].
  destruct (decide (capacity <= 0)%R) as [Hc|Hc].
  - now apply BloomSift_new_rejects_capacity.
  - apply BloomSift_new_rejects_errorRate; lra.
Qed.

Lemma C3_witness :
  BloomSift_new 0 (1 / 100)
  = Throw (if decide (0 <= 0)%R then "capacity must be positive"
           else "errorRate must be between 0 and 1")
  /\ completes (calculateOptimalParams 0 (1 / 100)).
Proof.
  apply (C3_constructor_rejects 0 (1 / 100)). left. lra.
Defined.

(** For valid inputs the size is a positive integer and the hash count a
    non-negative one. *)
Lemma calculateOptimalParams_valid (capacity errorRate : R) :
  (0 < capacity)%R -> (0 < errorRate < 1)%R ->
  exists m k : Z,
    1 <= m /\ 0 <= k
    /\ calculateOptimalParams capacity errorRate
       = Normal {| size := IZR m; hashCount := IZR k |}.
Proof.
  intros Hc He.
  exists (optimal_size capacity errorRate), (optimal_hashCount capacity errorRate).
  split; [now apply optimal_size_pos|].
  split; [now apply optimal_hashCount_nonneg|].
  apply calculateOptimalParams_eq.
Qed.

(** C4 -- There is no floor of 1: on the valid input (1000, 0.9) the
    function returns [size = 220] and [hashCount = round(0.22 * ln 2) = 0]. *)
Theorem C4_hashCount_zero :
  (0 < 1000)%R /\ (0 < 9 / 10 < 1)%R
  /\ calculateOptimalParams 1000 (9 / 10)
     = Normal {| size := 220; hashCount := 0 |}.
Proof.
  split; [lra|]. split; [lra|].
  rewrite calculateOptimalParams_eq.
  now rewrite optimal_size_1000_nine_tenths, optimal_hashCount_1000_nine_tenths.
Qed.

(** C7 -- Reference values: (1000, 0.01) gives (9586, 7) and
    (100, 0.001) gives (1438, 10). *)
Theorem C7_reference_values :
  calculateOptimalParams 1000 (1 / 100)
  = Normal {| size := 9586; hashCount := 7 |}
  /\ calculateOptimalParams 100 (1 / 1000)
     = Normal {| size := 1438; hashCount := 10 |}.
Proof.
  rewrite !calculateOptimalParams_eq.
  rewrite optimal_size_1000_hundredth, optimal_hashCount_1000_hundredth.
  rewrite optimal_size_100_thousandth, optimal_hashCount_100_thousandth.
  split; reflexivity.
Qed.

(** C5 -- [deserialize] rejects malformed records, in this order and with
    these messages: a [bits] that is missing or not a string; a [size]
    that is not a positive integer; a [hashCount] that is not a positive
    integer; a [count] that is not a non-negative integer; and decoded
    bits whose number of bytes [M] differs from [N = ceil(size / 8)],
    with the message "expected N bytes, got M".  Each message carries the
    prefix "Invalid serialized data: ". *)
Theorem C5_deserialize_rejects (data : SerializedBloomSift) :
  deserialize None = Throw "Invalid serialized data: missing bits"
  /\ (data_bits data = None ->
      deserialize (Some data) = Throw "Invalid serialized data: missing bits")
  /\ (is_Some (data_bits data) ->
      ~ positive_integer (data_size data) ->
      deserialize (Some data)
      = Throw "Invalid serialized data: size must be a positive integer")
  /\ (is_Some (data_bits data) ->
      positive_integer (data_size data) ->
      ~ positive_integer (data_hashCount data) ->
      deserialize (Some data)
      = Throw "Invalid serialized data: hashCount must be a positive integer")
  /\ (is_Some (data_bits data) ->
      positive_integer (data_size data) ->
      positive_integer (data_hashCount data) ->
      ~ nonnegative_integer (data_count data) ->
      deserialize (Some data)
      = Throw "Invalid serialized data: count must be a non-negative integer")
  /\ (forall bits64 bytes m,
        data_bits data = Some bits64 ->
        data_size data = Some (IZR m) -> 0 < m ->
        positive_integer (data_hashCount data) ->
        nonnegative_integer (data_count data) ->
        decoded_bytes bits64 = Some bytes ->
        Z.of_nat (length bytes) <> Zceil (IZR m / 8) ->
        deserialize (Some data)
        = Throw (length_message (Zceil (IZR m / 8)) (Z.of_nat (length bytes)))).
Proof.
  split; [reflexivity|].
  split. { intros Hb. unfold deserialize. now rewrite Hb. }
  split.
  { intros [b Hb] Hs. unfold deserialize. rewrite Hb.
    now rewrite (proj2 (nonpositive_or_not_integer_true _) Hs). }
  split.
  { intros [b Hb] Hs Hh. unfold deserialize. rewrite Hb.
    rewrite (proj2 (nonpositive_or_not_integer_false _) Hs).
    now rewrite (proj2 (nonpositive_or_not_integer_true _) Hh). }
  split.
  { intros [b Hb] Hs Hh Hc. unfold deserialize. rewrite Hb.
    rewrite (proj2 (nonpositive_or_not_integer_false _) Hs).
    rewrite (proj2 (nonpositive_or_not_integer_false _) Hh).
    now rewrite (proj2 (negative_or_not_integer_true _) Hc). }
  intros bits64 bytes m Hb Hs Hm (k & Hk & Hh) (c & Hc & Hcnt) Hdec Hlen.
  rewrite (deserialize_checked data bits64 m k c) by assumption.
  rewrite Hdec. rewrite Zceil_div8 in *.
  now destruct (decide (Z.of_nat (length bytes) = (m + 7) / 8)).
Qed.

Lemma C5_witness :
  deserialize (Some short_record)
  = Throw "Invalid serialized data: expected 13 bytes, got 1".
Proof.
  assert (Zceil (100 / 8) = 13) as H13 by apply (Zceil_div8 100).
  replace "Invalid serialized data: expected 13 bytes, got 1"%string
    with (length_message (Zceil (100 / 8)) (Z.of_nat (length [0])))
    by (rewrite H13; reflexivity).
  destruct (C5_deserialize_rejects short_record) as (_ & _ & _ & _ & _ & Hlen).
  apply (Hlen "AA=="%string [0] 100).
  - reflexivity.
  - reflexivity.
  - lia.
  - exists 7. split; [lia | reflexivity].
  - exists 0. split; [lia | reflexivity].
  - exact decoded_AA.
  - rewrite H13. simpl. lia.
Defined.

(** [deserialize] never reads the [capacity] field. *)
Lemma deserialize_ignores_capacity (d : SerializedBloomSift) (cap : option R) :
  deserialize (Some {| data_bits := data_bits d; data_size := data_size d;
                       data_hashCount := data_hashCount d;
                       data_count := data_count d; data_capacity := cap |})
  = deserialize (Some d).
Proof. reflexivity. Qed.

(** C6 -- On the record of the repository's test "should reject invalid
    capacity" ([bits: 'AA=='], [size: 8], [hashCount: 7], [capacity: 0],
    [count: 0]) [deserialize] returns a filter instead of throwing
    "capacity must be a positive integer". *)
Theorem C6_zero_capacity_accepted :
  data_capacity zero_capacity_record = Some 0%R
  /\ deserialize (Some zero_capacity_record) = Normal (restored [0] 8 7 0).
Proof. split; [reflexivity | exact zero_capacity_record_restored]. Qed.

(** C9 -- For every record accepted by [deserialize] the restored
    capacity is the record's count when that is non-zero and 1 otherwise;
    so [fillRatio] is exactly 1 when [count > 0] and exactly 0 when
    [count = 0]. *)
Theorem C9_restored_capacity (data : option SerializedBloomSift) (f : BloomSift) :
  deserialize data = Normal f ->
  exists d count,
    data = Some d /\ data_count d = Some count /\ _count f = count
    /\ _capacity f = (if decide (count = 0%R) then 1%R else count)
    /\ ((0 < count)%R -> fillRatio f = 1%R)
    /\ (count = 0%R -> fillRatio f = 0%R).
Proof.
  intros H. apply deserialize_Normal in H.
  destruct H as (d & bits64 & bytes & m & k & c & -> & _ & _ & _ & _ & _
                 & Hc & Hc0 & _ & _ & ->).
  exists d, (IZR c). split; [reflexivity|]. split; [assumption|].
  split; [reflexivity|]. split; [reflexivity|].
  unfold fillRatio, Math_min. simpl. split.
  - intros Hpos. destruct (decide (IZR c = 0%R)) as [|_]; [lra|].
    replace (IZR c / IZR c)%R with 1%R by (field; lra).
    apply Rmin_left. lra.
  - intros Hz. destruct (decide (IZR c = 0%R)) as [_|]; [|contradiction].
    rewrite Hz. replace (0 / 1)%R with 0%R by lra.
    apply Rmin_right. lra.
Qed.

Lemma C9_witness :
  exists d count,
    Some counted_record = Some d /\ data_count d = Some count
    /\ _count (restored [1] 8 7 5) = count
    /\ _capacity (restored [1] 8 7 5) = (if decide (count = 0%R) then 1%R else count)
    /\ ((0 < count)%R -> fillRatio (restored [1] 8 7 5) = 1%R)
    /\ (count = 0%R -> fillRatio (restored [1] 8 7 5) = 0%R).
Proof.
  apply (C9_restored_capacity (Some counted_record) (restored [1] 8 7 5)).
  exact counted_record_restored.
Defined.





(** * Further properties of the filter *)

Import BitFrame BitRuns.

(** On a filter with no bit set, [has] answers [false] for every item,
    unless the hash count is 0, when its loop body never runs. *)
Lemma has_all_clear (hash128x64 : item -> Z) (f : BloomSift) (x : item) :
  wf f -> all_clear (bits f) ->
  has hash128x64 f x = Normal (bool_decide (_hashCount f = 0%R)).
Proof.
  intros Hwf Hclear. rewrite has_eq by assumption. f_equal.
  destruct Hwf as (m & k & c & _ & Hk & _ & _ & Hh & _).
  unfold probes, indices. rewrite Hh, for_range_IZR.
  destruct (Z.to_nat k) as [|n] eqn:Hn.
  - cbn [seq map forallb]. symmetry. apply bool_decide_eq_true. f_equal. lia.
  - cbn [seq map forallb]. rewrite getBit_all_clear by assumption. cbn [andb].
    symmetry. apply bool_decide_eq_false. intros H0. apply eq_IZR in H0. lia.
Qed.

Lemma add_all_fields (hash128x64 : item -> Z) (xs : list item) (f : BloomSift) :
  wf f ->
  exists f', add_all hash128x64 f xs = Normal f'
             /\ _count f' = (_count f + IZR (Z.of_nat (length xs)))%R
             /\ _size f' = _size f /\ _hashCount f' = _hashCount f
             /\ _capacity f' = _capacity f
             /\ length (bits f') = length (bits f).
Proof.
  revert f. induction xs as [|x xs IH]; intros f Hwf.
  - exists f. split; [reflexivity|]. repeat split; try reflexivity.
    change (IZR (Z.of_nat (length (@nil item)))) with 0%R. lra.
  - simpl add_all. rewrite add_eq by assumption. cbn [mbind completion_bind].
    destruct (IH (added hash128x64 f x) (added_wf hash128x64 f x Hwf))
      as (f' & -> & Hc & Hs & Hh & Hcap & Hlen).
    exists f'. split; [reflexivity|].
    rewrite Hc, Hs, Hh, Hcap, Hlen. cbn [added _count _size _hashCount _capacity bits].
    rewrite fold_setBit_length.
    repeat split; try reflexivity.
    change (length (x :: xs)) with (S (length xs)).
    rewrite Nat2Z.inj_succ, succ_IZR. lra.
Qed.



(** X2 -- [clear] empties the filter and nothing else: the counter and
    the fill ratio are 0, no bit is set, the parameters and the number of
    bytes are kept, and [has] then answers [false] for every item (or
    [true] for every item in the degenerate case [hashCount = 0]). *)
Theorem X2_clear_resets
  (hash128x64 : item -> Z) (f f' : BloomSift) (x : item) :
  constructed hash128x64 f -> clear f = Normal f' ->
  _count f' = 0%R /\ fillRatio f' = 0%R /\ all_clear (bits f')
  /\ length (bits f') = length (bits f)
  /\ _size f' = _size f /\ _hashCount f' = _hashCount f
  /\ _capacity f' = _capacity f
  /\ has hash128x64 f' x = Normal (bool_decide (_hashCount f = 0%R)).
Proof.
  intros Hf Hclear. pose proof (constructed_wf hash128x64 f Hf) as Hwf.
  pose proof (cleared_wf f f' Hwf Hclear) as Hwf'.
  injection Hclear as <-. cbn [_count _size _hashCount _capacity bits].
  split; [reflexivity|]. split.
  { unfold fillRatio, Math_min. cbn [_count _capacity].
    destruct Hwf as (m & k & c & _ & _ & _ & _ & _ & _ & _ & _ & Hcap).
    replace (0 / _capacity f)%R with 0%R by (field; lra).
    apply Rmin_right. lra. }
  split; [apply fill0_all_clear|].
  split; [unfold Uint8Array_fill0; apply length_map|].
  repeat (split; [reflexivity|]).
  rewrite has_all_clear; [reflexivity | assumption | apply fill0_all_clear].
Qed.

Lemma X2_witness :
  exists f',
    clear full_filter = Normal f'
    /\ _count f' = 0%R /\ fillRatio f' = 0%R /\ all_clear (bits f')
    /\ length (bits f') = length (bits full_filter)
    /\ _size f' = _size full_filter /\ _hashCount f' = _hashCount full_filter
    /\ _capacity f' = _capacity full_filter
    /\ has sample_hash f' (ItemString "a")
       = Normal (bool_decide (_hashCount full_filter = 0%R)).
Proof.
  eexists. split; [reflexivity|].
  apply (X2_clear_resets sample_hash full_filter _ (ItemString "a")
           (full_constructed sample_hash) eq_refl).
Defined.

(** The constructor returns only for a positive capacity and an error
    rate strictly between 0 and 1. *)
Lemma BloomSift_new_Normal_valid (capacity errorRate : R) (f : BloomSift) :
  BloomSift_new capacity errorRate = Normal f ->
  (0 < capacity)%R /\ (0 < errorRate < 1)%R.
Proof.
  intros Hnew.
  destruct (Rle_dec capacity 0) as [Hc|Hc].
  { rewrite BloomSift_new_rejects_capacity in Hnew by assumption. discriminate. }
  apply Rnot_le_lt in Hc. split; [assumption|].
  destruct (Rle_dec errorRate 0) as [He|He].
  { rewrite BloomSift_new_rejects_errorRate in Hnew by auto. discriminate. }
  destruct (Rle_dec 1 errorRate) as [He'|He'].
  { rewrite BloomSift_new_rejects_errorRate in Hnew by auto. discriminate. }
  lra.
Qed.

(** X3 -- A filter fresh from the constructor is empty: the counter and
    the fill ratio are 0, it has [ceil(size / 8)] bytes with no bit set,
    and [has] answers [false] for every item (or [true] for every item in
    the degenerate case [hashCount = 0]). *)
Theorem X3_new_filter_is_empty
  (hash128x64 : item -> Z) (capacity errorRate : R) (f : BloomSift) (x : item) :
  BloomSift_new capacity errorRate = Normal f ->
  _count f = 0%R /\ fillRatio f = 0%R /\ all_clear (bits f)
  /\ IZR (Z.of_nat (length (bits f))) = Math_ceil (_size f / 8)
  /\ has hash128x64 f x = Normal (bool_decide (_hashCount f = 0%R)).
Proof.
  intros Hnew. pose proof (BloomSift_new_wf _ _ _ Hnew) as Hwf.
  destruct (BloomSift_new_Normal_valid _ _ _ Hnew) as [Hc He].
  rewrite BloomSift_new_accepts in Hnew by assumption.
  assert (all_clear (bits f)) as Hclear.
  { injection Hnew as <-. apply replicate_all_clear. }
  split; [now injection Hnew as <-|].
  split.
  { injection Hnew as <-. unfold fillRatio, Math_min. cbn [_count _capacity].
    replace (0 / capacity)%R with 0%R by (field; lra).
    apply Rmin_right. lra. }
  split; [assumption|].
  split.
  { destruct Hwf as (m & k & c & _ & _ & _ & Hs & _ & _ & Hlen & _).
    rewrite Hs, Hlen. unfold Math_ceil. now rewrite Zceil_div8. }
  now apply has_all_clear.
Qed.

Lemma X3_witness :
  exists f,
    BloomSift_new (1 / 2) (1 / 2) = Normal f
    /\ _count f = 0%R /\ fillRatio f = 0%R /\ all_clear (bits f)
    /\ IZR (Z.of_nat (length (bits f))) = Math_ceil (_size f / 8)
    /\ has sample_hash f (ItemString "a")
       = Normal (bool_decide (_hashCount f = 0%R)).
Proof.
  eexists. split; [apply BloomSift_new_accepts; lra|].
  apply (X3_new_filter_is_empty sample_hash (1 / 2) (1 / 2)).
  apply BloomSift_new_accepts; lra.
Defined.

(** The fill ratio of a well-formed filter: the count over the capacity,
    capped at 1. *)
Lemma fillRatio_wf (f : BloomSift) :
  wf f ->
  (0 <= fillRatio f <= 1)%R
  /\ (fillRatio f = 1%R <-> (_capacity f <= _count f)%R)
  /\ ((_count f < _capacity f)%R -> fillRatio f = (_count f / _capacity f)%R).
Proof.
  intros (m & k & c & _ & _ & Hc & _ & _ & Hcount & _ & _ & Hcap).
  assert (0 <= _count f)%R as Hc0 by (rewrite Hcount; now apply IZR_le).
  set (n := _count f) in *. set (d := _capacity f) in *.
  assert (0 <= n / d)%R as Hq0.
  { apply Rmult_le_pos; [assumption|]. left. now apply Rinv_0_lt_compat. }
  assert (n / d * d = n)%R as Hq by (field; lra).
  assert (1 <= n / d <-> d <= n)%R as Hq1.
  { split; intros H.
    - rewrite <- Hq. rewrite <- (Rmult_1_l d) at 1.
      apply Rmult_le_compat_r; lra.
    - apply (Rmult_le_reg_r d); [assumption|]. lra. }
  unfold fillRatio, Math_min. fold n d. unfold Rmin.
  destruct (Rle_dec 1 (n / d)) as [H1|H1].
  - split; [lra|]. split; [tauto|]. intros Hlt. apply Hq1 in H1. lra.
  - split; [lra|]. split; [|reflexivity].
    split; intros H; [lra|]. apply Hq1 in H. contradiction.
Qed.

(** X4 -- The fill ratio of a filter a program can hold lies between 0
    and 1, is [count / capacity] below saturation, reaches 1 exactly when
    the count has reached the capacity, and never decreases under
    [add]. *)
Theorem X4_fillRatio_range
  (hash128x64 : item -> Z) (f f' : BloomSift) (x : item) :
  constructed hash128x64 f -> add hash128x64 f x = Normal f' ->
  (0 <= fillRatio f <= 1)%R
  /\ (fillRatio f = 1%R <-> (_capacity f <= _count f)%R)
  /\ ((_count f < _capacity f)%R -> fillRatio f = (_count f / _capacity f)%R)
  /\ (fillRatio f <= fillRatio f')%R.
Proof.
  intros Hf Hadd. pose proof (constructed_wf hash128x64 f Hf) as Hwf.
  destruct (fillRatio_wf f Hwf) as (Hrange & Hone & Hbelow).
  repeat (split; [assumption|]).
  rewrite add_eq in Hadd by assumption. injection Hadd as <-.
  destruct Hwf as (m & k & c & _ & _ & _ & _ & _ & _ & _ & _ & Hcap).
  unfold fillRatio, Math_min. cbn [added _count _capacity].
  apply Rle_min_compat_l.
  apply Rmult_le_compat_r; [|lra]. left. now apply Rinv_0_lt_compat.
Qed.

Lemma X4_witness :
  exists f',
    add sample_hash sample_filter (ItemString "a") = Normal f'
    /\ (0 <= fillRatio sample_filter <= 1)%R
    /\ (fillRatio sample_filter = 1%R
        <-> (_capacity sample_filter <= _count sample_filter)%R)
    /\ ((_count sample_filter < _capacity sample_filter)%R ->
        fillRatio sample_filter
        = (_count sample_filter / _capacity sample_filter)%R)
    /\ (fillRatio sample_filter <= fillRatio f')%R.
Proof.
  eexists. split; [apply add_eq; apply (constructed_wf sample_hash), sample_constructed|].
  apply (X4_fillRatio_range sample_hash sample_filter _ (ItemString "a")).
  - apply sample_constructed.
  - apply add_eq. apply (constructed_wf sample_hash), sample_constructed.
Defined.

(** X5 -- [setBit] sets the addressed bit and no other: on an array of
    bytes it keeps the length and the byte range; for an index inside
    the array a later [getBit] answers [true] at that index and is
    unchanged elsewhere; for an index outside the array [setBit] does
    nothing and [getBit] answers [false]. *)
Theorem X5_setBit_sets_one_bit (bits : list Z) (i j : Z) :
  Forall byte bits ->
  length (setBit bits i) = length bits
  /\ Forall byte (setBit bits i)
  /\ (0 <= i < 8 * Z.of_nat (length bits) ->
      getBit (setBit bits i) j = getBit bits j || (j =? i))
  /\ (i < 0 \/ 8 * Z.of_nat (length bits) <= i ->
      setBit bits i = bits /\ getBit bits i = false).
Proof.
  intros Hbytes.
  split; [apply setBit_length|].
  split; [now apply setBit_bytes|].
  split.
  - intros Hi. now apply getBit_setBit.
  - intros Hi. split; [now apply setBit_outside | now apply getBit_outside].
Qed.

Lemma X5_witness :
  length (setBit [0; 128] 9) = length [0; 128]
  /\ Forall byte (setBit [0; 128] 9)
  /\ (0 <= 9 < 8 * Z.of_nat (length [0; 128]) ->
      getBit (setBit [0; 128] 9) 15 = getBit [0; 128] 15 || (15 =? 9))
  /\ (9 < 0 \/ 8 * Z.of_nat (length [0; 128]) <= 9 ->
      setBit [0; 128] 9 = [0; 128] /\ getBit [0; 128] 9 = false).
Proof.
  apply (X5_setBit_sets_one_bit [0; 128] 9 15).
  repeat constructor; unfold byte; lia.
Defined.


Lemma has_true_probes (hash128x64 : item -> Z) (f : BloomSift) (x : item) :
  wf f ->
  has hash128x64 f x = Normal true
  <-> forall j, In j (probes hash128x64 f x) -> getBit (bits f) j = true.
Proof.
  intros Hwf. rewrite has_eq by assumption. split.
  - intros H j Hj. injection H as H. rewrite forallb_forall in H. now apply H.
  - intros H. f_equal. apply forallb_forall. exact H.
Qed.

(** X6 -- Adding an item the filter already answers [true] for changes
    no bit: only the counter moves. *)
Theorem X6_add_known_item
  (hash128x64 : item -> Z) (f : BloomSift) (x : item) :
  constructed hash128x64 f -> has hash128x64 f x = Normal true ->
  add hash128x64 f x
  = Normal {| bits := bits f; _size := _size f; _hashCount := _hashCount f;
              _capacity := _capacity f; _count := (_count f + 1)%R |}.
Proof.
  intros Hf Hhas. pose proof (constructed_wf hash128x64 f Hf) as Hwf.
  rewrite add_eq by assumption. unfold added. f_equal. f_equal.
  apply fold_setBit_identity.
  - now destruct Hwf as (m & k & c & _ & _ & _ & _ & _ & _ & _ & Hb & _).
  - now apply has_true_probes.
Qed.

Lemma X6_witness :
  add sample_hash full_filter (ItemString "a")
  = Normal {| bits := bits full_filter; _size := _size full_filter;
              _hashCount := _hashCount full_filter;
              _capacity := _capacity full_filter;
              _count := (_count full_filter + 1)%R |}.
Proof.
  apply (X6_add_known_item sample_hash full_filter (ItemString "a")).
  - apply full_constructed.
  - rewrite has_eq by apply (constructed_wf sample_hash), full_constructed.
    f_equal. apply forallb_forall. intros j Hj.
    pose proof (probes_in_range sample_hash sample_hash_contract full_filter
                  (ItemString "a")
                  (constructed_wf sample_hash _ (full_constructed sample_hash)))
      as [Hr _].
    rewrite List.Forall_forall in Hr. specialize (Hr j Hj).
    change (Zfloor (_size full_filter)) with (Zfloor (IZR 8)) in Hr.
    rewrite ZfloorZ in Hr.
    assert (j = 0 \/ j = 1 \/ j = 2 \/ j = 3 \/ j = 4 \/ j = 5 \/ j = 6 \/ j = 7)
      as Hcases by lia.
    destruct Hcases as [->|[->|[->|[->|[->|[->|[->| ->]]]]]]]; reflexivity.
Defined.





(** After a run of [add] calls a bit is set exactly when it was set
    before or is a probe of one of the added items. *)
Lemma add_all_bits (hash128x64 : item -> Z) (xs : list item) :
  hash_contract hash128x64 ->
  forall f f', wf f -> add_all hash128x64 f xs = Normal f' ->
  forall j, getBit (bits f') j = true
            <-> getBit (bits f) j = true
                \/ exists x, In x xs /\ In j (probes hash128x64 f x).
Proof.
  intros Hhash. induction xs as [|x xs IH]; intros f f' Hwf Hrun j.
  - injection Hrun as <-. split; [now left|].
    intros [H|(x & [] & _)]. exact H.
  - cbn [add_all] in Hrun. rewrite add_eq in Hrun by assumption.
    cbn [mbind completion_bind] in Hrun.
    rewrite (IH _ _ (added_wf hash128x64 f x Hwf) Hrun j).
    assert (Forall byte (bits f)) as Hb
      by now destruct Hwf as (m & k & c & _ & _ & _ & _ & _ & _ & _ & Hb & _).
    destruct (probes_in_range hash128x64 Hhash f x Hwf) as [Hr Hlen].
    rewrite List.Forall_forall in Hr.
    cbn [added bits]. split.
    + intros [H|(y & Hy & Hj)].
      * apply getBit_fold_inv in H; [|assumption].
        destruct H as [H|H]; [now left|]. right. exists x. split; [now left|exact H].
      * right. exists y. split; [now right|]. exact Hj.
    + intros [H|(y & [<-|Hy] & Hj)].
      * left. now apply getBit_fold_mono.
      * left. apply getBit_fold_set; [assumption|exact Hj|].
        specialize (Hr j Hj). lia.
      * right. exists y. split; [exact Hy|exact Hj].
Qed.

(** X8 -- No bit is set without cause.  Starting from a filter with no
    bit set (fresh or cleared), after a run of [add] calls a bit is set
    exactly when it is one of the positions probed for an added item;
    [has] therefore answers [true] for an item exactly when each of its
    positions is also probed for some added item. *)
Theorem X8_bits_are_probes
  (hash128x64 : item -> Z) (f f' : BloomSift) (xs : list item) :
  hash_contract hash128x64 ->
  constructed hash128x64 f -> all_clear (bits f) ->
  add_all hash128x64 f xs = Normal f' ->
  (forall j, getBit (bits f') j = true
             <-> exists x, In x xs /\ In j (probes hash128x64 f x))
  /\ (forall y, has hash128x64 f' y = Normal true
                <-> forall j, In j (probes hash128x64 f y) ->
                      exists x, In x xs /\ In j (probes hash128x64 f x)).
Proof.
  intros Hhash Hf Hclear Hrun.
  pose proof (constructed_wf hash128x64 f Hf) as Hwf.
  assert (forall j, getBit (bits f') j = true
                    <-> exists x, In x xs /\ In j (probes hash128x64 f x)) as Hbits.
  { intros j. rewrite (add_all_bits hash128x64 xs Hhash f f' Hwf Hrun j).
    rewrite getBit_all_clear by assumption. split; [|now right].
    intros [H|H]; [discriminate|exact H]. }
  split; [exact Hbits|].
  intros y.
  destruct (add_all_total hash128x64 xs f Hwf) as (g & Hg & Hwf' & Hs & Hk & _).
  rewrite Hrun in Hg. injection Hg as <-.
  rewrite (has_true_probes hash128x64 f' y Hwf').
  assert (probes hash128x64 f' y = probes hash128x64 f y) as ->
    by (unfold probes; now rewrite Hs, Hk).
  split; intros H j Hj; apply Hbits; now apply H.
Qed.

Lemma X8_witness :
  exists f',
    add_all sample_hash sample_filter [ItemString "a"] = Normal f'
    /\ (forall j, getBit (bits f') j = true
                  <-> exists x, In x [ItemString "a"]
                                /\ In j (probes sample_hash sample_filter x))
    /\ (forall y, has sample_hash f' y = Normal true
                  <-> forall j, In j (probes sample_hash sample_filter y) ->
                        exists x, In x [ItemString "a"]
                                  /\ In j (probes sample_hash sample_filter x)).
Proof.
  destruct (add_all_fields sample_hash [ItemString "a"] sample_filter
              (constructed_wf sample_hash _ (sample_constructed sample_hash)))
    as (f' & Hrun & _).
  exists f'. split; [exact Hrun|].
  apply (X8_bits_are_probes sample_hash sample_filter f' [ItemString "a"]).
  - exact sample_hash_contract.
  - apply sample_constructed.
  - repeat constructor.
  - exact Hrun.
Defined.

(** Splitting a non-negative number below [2^(2n)] into its high and
    low [n]-bit halves. *)
Lemma split_halves (n h : Z) :
  0 <= n -> 0 <= h < 2 ^ n * 2 ^ n ->
  (0 <= Z.shiftr h n < 2 ^ n)
  /\ (0 <= Z.land h (Z.shiftl 1 n - 1) < 2 ^ n)
  /\ h = Z.shiftr h n * 2 ^ n + Z.land h (Z.shiftl 1 n - 1).
Proof.
  intros Hn Hh.
  rewrite Z.shiftr_div_pow2 by assumption.
  replace (Z.shiftl 1 n - 1) with (Z.ones n)
    by (rewrite Z.ones_equiv, Z.shiftl_1_l; lia).
  rewrite Z.land_ones by assumption.
  assert (0 < 2 ^ n) as Hp by (apply Z.pow_pos_nonneg; lia).
  set (p := 2 ^ n) in *.
  split; [split; [apply Z.div_pos; lia | apply Z.div_lt_upper_bound; lia]|].
  split; [apply Z.mod_pos_bound; lia|].
  rewrite Z.mul_comm. apply Z.div_mod. lia.
Qed.

(** X9 -- [hash128] splits the 128-bit hash into two 64-bit halves
    without loss: both halves lie in [0, 2^64) and the hash is
    [h1 * 2^64 + h2]. *)
Theorem X9_hash128_halves (hash128x64 : item -> Z) (x : item) :
  hash_contract hash128x64 ->
  0 <= fst (hash128 hash128x64 x) < 2 ^ 64
  /\ 0 <= snd (hash128 hash128x64 x) < 2 ^ 64
  /\ hash128x64 x
     = fst (hash128 hash128x64 x) * 2 ^ 64 + snd (hash128 hash128x64 x).
Proof.
  intros Hhash. unfold hash128. cbn [fst snd].
  apply (split_halves 64); [lia|].
  rewrite <- Z.pow_add_r by lia. exact (Hhash x).
Qed.

Lemma X9_witness :
  0 <= fst (hash128 sample_hash (ItemString "a")) < 2 ^ 64
  /\ 0 <= snd (hash128 sample_hash (ItemString "a")) < 2 ^ 64
  /\ sample_hash (ItemString "a")
     = fst (hash128 sample_hash (ItemString "a")) * 2 ^ 64
       + snd (hash128 sample_hash (ItemString "a")).
Proof.
  apply (X9_hash128_halves sample_hash (ItemString "a")).
  exact sample_hash_contract.
Defined.

(** X10 -- [deserialize] returns exactly on the records whose [bits] is
    a string that base64-decodes, whose [size] and [hashCount] are
    positive integers, whose [count] is a non-negative integer and whose
    decoded length is [ceil(size / 8)] bytes; the filter returned holds
    the decoded bytes and the three numbers, its capacity being
    [count || 1].  The [capacity] field of the record plays no part. *)
Theorem X10_deserialize_accepts_iff
  (data : option SerializedBloomSift) (f : BloomSift) :
  deserialize data = Normal f
  <-> exists d bits64 bytes m k c,
        data = Some d /\ data_bits d = Some bits64
        /\ data_size d = Some (IZR m) /\ 0 < m
        /\ data_hashCount d = Some (IZR k) /\ 0 < k
        /\ data_count d = Some (IZR c) /\ 0 <= c
        /\ decoded_bytes bits64 = Some bytes
        /\ IZR (Z.of_nat (length bytes)) = Math_ceil (IZR m / 8)
        /\ f = {| bits := bytes; _size := IZR m; _hashCount := IZR k;
                  _capacity := if decide (IZR c = 0%R) then 1%R else IZR c;
                  _count := IZR c |}.
Proof.
  split.
  - intros Hd.
    destruct (deserialize_Normal data f Hd)
      as (d & bits64 & bytes & m & k & c & -> & Hb & Hs & Hm & Hh & Hk & Hc & Hc0
          & Hdec & Hlen & ->).
    exists d, bits64, bytes, m, k, c.
    repeat (split; [first [assumption | reflexivity]|]).
    split; [|reflexivity].
    unfold Math_ceil. now rewrite Zceil_div8, Hlen.
  - intros (d & bits64 & bytes & m & k & c & -> & Hb & Hs & Hm & Hh & Hk & Hc & Hc0
            & Hdec & Hlen & ->).
    rewrite (deserialize_checked d bits64 m k c) by assumption.
    rewrite Hdec. unfold Math_ceil in Hlen. rewrite Zceil_div8 in Hlen.
    apply eq_IZR in Hlen.
    destruct (decide (Z.of_nat (length bytes) = (m + 7) / 8)); [|contradiction].
    reflexivity.
Qed.

Lemma X10_witness :
  deserialize (Some sample_record) = Normal sample_filter.
Proof.
  apply (proj2 (X10_deserialize_accepts_iff (Some sample_record) sample_filter)).
  exists sample_record, "AA=="%string, (bits sample_filter), 8, 7, 0.
  split; [reflexivity|]. split; [reflexivity|].
  split; [reflexivity|]. split; [lia|].
  split; [reflexivity|]. split; [lia|].
  split; [reflexivity|]. split; [lia|].
  split; [exact decoded_AA|].
  split; [|reflexivity].
  unfold Math_ceil. rewrite Zceil_div8. reflexivity.
Defined.



(** X12 -- Serializing a restored filter gives the record back in
    normal form: [size], [hashCount] and [count] are those of the record
    read, there is no [capacity] field, the [bits] text decodes to the
    same bytes as the text read, and reading the new record restores the
    same filter. *)
Theorem X12_record_normalised (d : SerializedBloomSift) (f : BloomSift) :
  deserialize (Some d) = Normal f ->
  exists d', serialize f = Normal d'
    /\ data_size d' = data_size d /\ data_hashCount d' = data_hashCount d
    /\ data_count d' = data_count d /\ data_capacity d' = None
    /\ (exists t t', data_bits d = Some t /\ data_bits d' = Some t'
                     /\ decoded_bytes t' = decoded_bytes t)
    /\ deserialize (Some d') = Normal f.
Proof.
  intros Hd.
  destruct (deserialize_Normal _ _ Hd)
    as (d0 & bits64 & bytes & m & k & c & [= <-] & Hb & Hs & Hm & Hh & Hk & Hc & Hc0
        & Hdec & Hlen & ->).
  pose proof (decoded_bytes_btoa bytes (decoded_bytes_byte _ _ Hdec)) as Hbtoa.
  rewrite serialize_eq. eexists. split; [reflexivity|].
  cbn [data_size data_hashCount data_count data_capacity data_bits restored
       bits _size _hashCount _count].
  split; [now rewrite Hs|]. split; [now rewrite Hh|]. split; [now rewrite Hc|].
  split; [reflexivity|].
  split.
  { eexists _, _. split; [exact Hb|]. split; [reflexivity|].
    now rewrite Hbtoa, Hdec. }
  match goal with
  | |- deserialize (Some ?d') = _ =>
      rewrite (deserialize_checked d' _ m k c eq_refl eq_refl Hm eq_refl Hk eq_refl Hc0)
  end.
  rewrite Hbtoa.
  destruct (decide (Z.of_nat (length bytes) = (m + 7) / 8)); [|contradiction].
  reflexivity.
Qed.

Lemma X12_witness :
  exists d', serialize full_filter = Normal d'
    /\ data_size d' = data_size full_record
    /\ data_hashCount d' = data_hashCount full_record
    /\ data_count d' = data_count full_record /\ data_capacity d' = None
    /\ (exists t t', data_bits full_record = Some t /\ data_bits d' = Some t'
                     /\ decoded_bytes t' = decoded_bytes t)
    /\ deserialize (Some d') = Normal full_filter.
Proof.
  apply (X12_record_normalised full_record full_filter).
  exact full_record_restored.
Defined.








(** X15 -- The size grows with the demands: for valid inputs, a larger
    capacity or a smaller error rate never gives a smaller [size]. *)
Theorem X15_size_monotone (capacity capacity' errorRate errorRate' : R)
  (p p' : OptimalParams) :
  (0 < capacity <= capacity')%R ->
  (0 < errorRate' <= errorRate)%R -> (errorRate < 1)%R ->
  calculateOptimalParams capacity errorRate = Normal p ->
  calculateOptimalParams capacity' errorRate' = Normal p' ->
  (size p <= size p')%R.
Proof.
  intros [Hc Hcc] [He Hee] He1 Hp Hp'. pose proof ln2_pos as HL.
  rewrite calculateOptimalParams_eq in Hp, Hp'.
  injection Hp as <-. injection Hp' as <-. cbn [size].
  apply IZR_le. unfold optimal_size. apply Zceil_le.
  apply Rmult_le_compat_r.
  { apply Rlt_le, Rinv_0_lt_compat. now apply Rmult_lt_0_compat. }
  pose proof (LnBoundsFacts.ln_le errorRate' errorRate He Hee) as Hln.
  pose proof (ln_neg errorRate ltac:(lra)) as Hneg.
  replace (- capacity * ln errorRate)%R with (capacity * - ln errorRate)%R by ring.
  replace (- capacity' * ln errorRate')%R with (capacity' * - ln errorRate')%R by ring.
  apply Rmult_le_compat; lra.
Qed.

Lemma X15_witness :
  exists p p',
    calculateOptimalParams 100 (1 / 100) = Normal p
    /\ calculateOptimalParams 1000 (1 / 1000) = Normal p'
    /\ (size p <= size p')%R.
Proof.
  eexists _, _.
  split; [apply calculateOptimalParams_eq|].
  split; [apply calculateOptimalParams_eq|].
  apply (X15_size_monotone 100 1000 (1 / 100) (1 / 1000));
    [lra | lra | lra | apply calculateOptimalParams_eq
     | apply calculateOptimalParams_eq].
Defined.





(** X17 -- Double hashing collapses when the low half of the hash is a
    multiple of the size: every probe of such an item is the same
    position, [h1 % size], so [add] sets at most one bit for it and
    [has] tests only that bit. *)
Theorem X17_collapsed_probes
  (hash128x64 : item -> Z) (f : BloomSift) (x : item) :
  hash_contract hash128x64 -> constructed hash128x64 f ->
  Z.rem (snd (hash128 hash128x64 x)) (Zfloor (_size f)) = 0 ->
  forall j, In j (probes hash128x64 f x) ->
            j = Z.rem (fst (hash128 hash128x64 x)) (Zfloor (_size f)).
Proof.
  intros Hhash Hf Hrem j Hj.
  pose proof (constructed_wf hash128x64 f Hf) as Hwf.
  destruct (wf_size f Hwf) as (m & Hm & _ & Hfl & _).
  destruct (hash128_nonneg hash128x64 x Hhash) as [H1 H2].
  rewrite Hfl in *. unfold probes, indices in Hj. rewrite Hfl in Hj.
  apply in_map_iff in Hj. destruct Hj as (i & <- & Hi).
  apply for_range_spec in Hi. destruct Hi as [Hi _].
  set (h1 := fst (hash128 hash128x64 x)) in *.
  set (h2 := snd (hash128 hash128x64 x)) in *.
  rewrite Z.rem_mod_nonneg in Hrem by lia.
  rewrite !Z.rem_mod_nonneg by nia.
  pose proof (Z.div_mod h2 m ltac:(lia)) as Hdm. rewrite Hrem in Hdm.
  replace (h1 + i * h2) with (h1 + (i * (h2 / m)) * m) by nia.
  apply Z.mod_add. lia.
Qed.

Lemma X17_witness :
  Z.rem (snd (hash128 sample_hash (ItemBytes [1]))) (Zfloor (_size sample_filter)) = 0
  /\ forall j, In j (probes sample_hash sample_filter (ItemBytes [1])) ->
               j = Z.rem (fst (hash128 sample_hash (ItemBytes [1])))
                     (Zfloor (_size sample_filter)).
Proof.
  assert (Z.rem (snd (hash128 sample_hash (ItemBytes [1])))
            (Zfloor (_size sample_filter)) = 0) as Hrem.
  { change (_size sample_filter) with (IZR 8). rewrite ZfloorZ. reflexivity. }
  split; [exact Hrem|].
  apply (X17_collapsed_probes sample_hash sample_filter (ItemBytes [1])).
  - exact sample_hash_contract.
  - apply sample_constructed.
  - exact Hrem.
Defined.

(** X18 -- What one [add] does to the bits: afterwards a bit is set
    exactly when it was set before or is one of the item's probes; there
    are [hashCount] probes, each a position in [0, size), so bits at or
    above [size] are never touched. *)
Theorem X18_add_effect
  (hash128x64 : item -> Z) (f f' : BloomSift) (x : item) :
  hash_contract hash128x64 -> constructed hash128x64 f ->
  add hash128x64 f x = Normal f' ->
  (forall j, getBit (bits f') j = true
             <-> getBit (bits f) j = true \/ In j (probes hash128x64 f x))
  /\ Forall (fun j => 0 <= j /\ (IZR j < _size f)%R) (probes hash128x64 f x)
  /\ IZR (Z.of_nat (length (probes hash128x64 f x))) = _hashCount f
  /\ (forall j, (_size f <= IZR j)%R -> getBit (bits f') j = getBit (bits f) j).
Proof.
  intros Hhash Hf Hadd.
  pose proof (constructed_wf hash128x64 f Hf) as Hwf.
  assert (forall j, getBit (bits f') j = true
                    <-> getBit (bits f) j = true \/ In j (probes hash128x64 f x))
    as Hbits.
  { intros j.
    rewrite (add_all_bits hash128x64 [x] Hhash f f' Hwf); [|cbn [add_all]].
    - split; (intros [H|H]; [now left|right]).
      + destruct H as (y & [<-|[]] & Hj). exact Hj.
      + exists x. split; [now left|exact H].
    - rewrite Hadd. reflexivity. }
  destruct (probes_in_range hash128x64 Hhash f x Hwf) as [Hr _].
  destruct (wf_size f Hwf) as (m & Hm & Hs & Hfl & _).
  assert (Forall (fun j => 0 <= j /\ (IZR j < _size f)%R) (probes hash128x64 f x))
    as Hrange.
  { eapply List.Forall_impl; [|exact Hr]. cbv beta. intros j [Hj0 Hj].
    split; [assumption|]. rewrite Hs. apply IZR_lt. lia. }
  split; [exact Hbits|]. split; [exact Hrange|]. split.
  - destruct Hwf as (m' & k & c & _ & Hk & _ & _ & Hh & _).
    unfold probes, indices. rewrite Hh, for_range_IZR.
    rewrite !length_map, length_seq. f_equal. lia.
  - intros j Hj.
    assert (~ In j (probes hash128x64 f x)) as Hnot.
    { intros Hin. rewrite List.Forall_forall in Hrange.
      destruct (Hrange j Hin) as [_ Hlt]. lra. }
    specialize (Hbits j).
    destruct (getBit (bits f') j), (getBit (bits f) j); try reflexivity.
    + destruct (proj1 Hbits eq_refl) as [H|H]; [discriminate|contradiction].
    + apply (proj2 Hbits). now left.
Qed.

Lemma X18_witness :
  exists f',
    add sample_hash sample_filter (ItemString "a") = Normal f'
    /\ (forall j, getBit (bits f') j = true
                  <-> getBit (bits sample_filter) j = true
                      \/ In j (probes sample_hash sample_filter (ItemString "a")))
    /\ Forall (fun j => 0 <= j /\ (IZR j < _size sample_filter)%R)
         (probes sample_hash sample_filter (ItemString "a"))
    /\ IZR (Z.of_nat (length (probes sample_hash sample_filter (ItemString "a"))))
       = _hashCount sample_filter
    /\ (forall j, (_size sample_filter <= IZR j)%R ->
                  getBit (bits f') j = getBit (bits sample_filter) j).
Proof.
  eexists. split; [apply add_eq; apply (constructed_wf sample_hash), sample_constructed|].
  apply (X18_add_effect sample_hash sample_filter _ (ItemString "a")).
  - exact sample_hash_contract.
  - apply sample_constructed.
  - apply add_eq. apply (constructed_wf sample_hash), sample_constructed.
Defined.
